(** * conip: the de Bruijn sequence B(256, 4) as a stream of bytes

    A shallow embedding of [terms] and of the two output modes of [main]
    (main.go), with the properties of the term stream: its length, its first
    and last terms, the invariant of the working word, termination of the
    main loop, the de Bruijn property of the 4-term windows, and the
    round trip between text and binary output. *)

From Equations Require Import Equations.
From Stdlib Require Import ZArith List Lia Bool Eqdep_dec Wellfounded FinFun.
From Stdlib Require Import Permutation.
From Stdlib Require Ascii String DecimalString.
Import ListNotations.

Local Open Scope Z_scope.

(** * The program *)

(** ** Bytes and the working word *)

(** A Go [byte] is kept as a [Z] in [0, 255]; [u[i]++] wraps modulo 256. *)
Definition incr (x : Z) : Z := (x + 1) mod 256.

Definition byte_ok (x : Z) : bool := (0 <=? x) && (x <? 256).

(** [u := [4]byte{}]: the four slots of the working word. *)
Record word : Type := Word { u0 : Z; u1 : Z; u2 : Z; u3 : Z }.

Definition zero_word : word := Word 0 0 0 0.

Definition inrangeb (u : word) : bool :=
  byte_ok (u0 u) && byte_ok (u1 u) && byte_ok (u2 u) && byte_ok (u3 u).

(** Every slot holds a byte. *)
Definition inrange (u : word) : Prop := inrangeb u = true.

(** The working word read as a big-endian 32-bit integer. *)
Definition val (u : word) : Z :=
  ((u0 u * 256 + u1 u) * 256 + u2 u) * 256 + u3 u.

(** Lexicographic order on the four slots. *)
Definition lex_lt (u v : word) : Prop :=
  u0 u < u0 v \/
  (u0 u = u0 v /\
   (u1 u < u1 v \/
    (u1 u = u1 v /\
     (u2 u < u2 v \/
      (u2 u = u2 v /\ u3 u < u3 v))))).

(** ** One iteration of the main loop of [terms] *)

(** The part of the loop body guarded by [u[3] == 0xff].  [inl] is a branch
    that ends in [continue], with the new word and the terms sent; [inr] is
    the word with which control falls through to the 4-element step. *)
Definition saturated (u : word) : (word * list Z) + word :=
  if u3 u =? 255 then
    if u2 u =? 255 then
      if u1 u =? 255 then
        (* 1-element Lyndon word *)
        let a := incr (u0 u) in
        inl (Word a a a a, [a])
      else
        (* 2-element Lyndon word *)
        let b := incr (u1 u) in
        inl (Word (u0 u) b (u0 u) b, [u0 u; b])
    else
      (* would-be 3-element *)
      inr (Word (u0 u) (u1 u) (incr (u2 u)) (u0 u))
  else inr u.

(** The 4-element step: [u[3]++] and the four slots are sent. *)
Definition four (u : word) : word * list Z :=
  let d := incr (u3 u) in
  (Word (u0 u) (u1 u) (u2 u) d, [u0 u; u1 u; u2 u; d]).

(** The body of the loop: the new working word and the terms sent on the
    channel, in order.  The line written to the log by the 1-element branch
    is no part of the stream. *)
Definition body (u : word) : word * list Z :=
  match saturated u with
  | inl r => r
  | inr v => four v
  end.

(** The working word after an iteration. *)
Definition next (u : word) : word := fst (body u).

(** The terms an iteration sends. *)
Definition sent (u : word) : list Z := snd (body u).

(** Which branch an iteration takes. *)
Inductive branch : Type := B1 | B2 | B3 | B4.

Definition branch_of (u : word) : branch :=
  if u3 u =? 255 then
    if u2 u =? 255 then
      if u1 u =? 255 then B1 else B2
    else B3
  else B4.

(** ** What the loop needs to be defined: ranges and the measure *)

Lemma byte_ok_iff x : byte_ok x = true <-> 0 <= x < 256.
Proof. unfold byte_ok. rewrite andb_true_iff, Z.leb_le, Z.ltb_lt. tauto. Qed.

Lemma inrange_iff u :
  inrange u <->
  0 <= u0 u < 256 /\ 0 <= u1 u < 256 /\ 0 <= u2 u < 256 /\ 0 <= u3 u < 256.
Proof.
  unfold inrange, inrangeb.
  rewrite !andb_true_iff, !byte_ok_iff. tauto.
Qed.

Lemma inrange_Word a b c d :
  inrange (Word a b c d) <->
  0 <= a < 256 /\ 0 <= b < 256 /\ 0 <= c < 256 /\ 0 <= d < 256.
Proof. apply inrange_iff. Qed.

Lemma inrange_irrel u (H1 H2 : inrange u) : H1 = H2.
Proof. apply UIP_dec, bool_dec. Qed.

Lemma incr_small x : 0 <= x < 255 -> incr x = x + 1.
Proof. intros H. unfold incr. apply Z.mod_small. lia. Qed.

(** Case analysis on the comparisons with [0xff] made by the loop body. *)
Ltac eqb_cases :=
  repeat match goal with
         | |- context [ ?x =? ?y ] => destruct (Z.eqb_spec x y)
         | H : context [ ?x =? ?y ] |- _ => destruct (Z.eqb_spec x y)
         end.

Ltac word_facts :=
  repeat match goal with
         | H : inrange (Word _ _ _ _) |- _ => apply inrange_Word in H
         | H : inrange _ |- _ => apply inrange_iff in H; cbn [u0 u1 u2 u3] in H
         end.

Lemma body_cases u :
  inrange u -> u0 u <> 255 ->
  match branch_of u with
  | B1 => u1 u = 255 /\ u2 u = 255 /\ u3 u = 255 /\
          body u = (Word (u0 u + 1) (u0 u + 1) (u0 u + 1) (u0 u + 1), [u0 u + 1])
  | B2 => u1 u <> 255 /\ u2 u = 255 /\ u3 u = 255 /\
          body u = (Word (u0 u) (u1 u + 1) (u0 u) (u1 u + 1), [u0 u; u1 u + 1])
  | B3 => u2 u <> 255 /\ u3 u = 255 /\
          body u = (Word (u0 u) (u1 u) (u2 u + 1) (u0 u + 1),
                    [u0 u; u1 u; u2 u + 1; u0 u + 1])
  | B4 => u3 u <> 255 /\
          body u = (Word (u0 u) (u1 u) (u2 u) (u3 u + 1),
                    [u0 u; u1 u; u2 u; u3 u + 1])
  end.
Proof.
  intros Hr H0. word_facts.
  unfold branch_of, body, saturated, four.
  eqb_cases; cbn [u0 u1 u2 u3]; rewrite ?incr_small by lia; auto.
Qed.

Lemma next_inrange u : inrange u -> u0 u <> 255 -> inrange (next u).
Proof.
  intros Hr H0. pose proof (body_cases u Hr H0) as Hb.
  unfold next. word_facts.
  destruct (branch_of u); decompose [and] Hb; clear Hb;
    match goal with E : body u = _ |- _ => rewrite E end;
    cbn [fst]; apply inrange_Word; lia.
Qed.

Lemma val_next u : inrange u -> u0 u <> 255 -> val u < val (next u).
Proof.
  intros Hr H0. pose proof (body_cases u Hr H0) as Hb.
  unfold next. word_facts.
  destruct (branch_of u); decompose [and] Hb; clear Hb;
    match goal with E : body u = _ |- _ => rewrite E end;
    unfold val; cbn [fst u0 u1 u2 u3]; lia.
Qed.

Lemma val_bound u : inrange u -> 0 <= val u < 4294967296.
Proof. intros Hr. word_facts. unfold val. lia. Qed.

(** ** The main loop and the term stream *)

(** How far the working word is from the top of its domain. *)
Definition gap (u : word) : nat := Z.to_nat (4294967296 - val u).

(** [for u[0] != 0xff { ... }]: the terms sent from the working word [u]
    on, until the loop exits. *)
Equations? loop (u : word) (Hr : inrange u) : list Z by wf (gap u) lt :=
  loop u Hr with Z.eq_dec (u0 u) 255 := {
    | left _ := [];
    | right Hne := sent u ++ loop (next u) (next_inrange u Hr Hne) }.
Proof.
  pose proof (val_next u Hr Hne).
  pose proof (val_bound _ (next_inrange u Hr Hne)).
  pose proof (val_bound _ Hr).
  unfold gap. lia.
Qed.

Lemma zero_word_inrange : inrange zero_word.
Proof. reflexivity. Qed.

(** [terms]: the first term, the loop, the three closing terms. *)
Definition terms : list Z :=
  0 :: loop zero_word zero_word_inrange ++ [0; 0; 0].

(** The loop started at any word: the slots of a [[4]byte] are bytes, so a
    word outside the byte range is no state of the program. *)
Definition loop_from (u : word) : list Z :=
  match bool_dec (inrangeb u) true with
  | left Hr => loop u Hr
  | right _ => []
  end.

(** The stream from the point where the word of [u] is sent. *)
Definition rest_from (u : word) : list Z := loop_from u ++ [0; 0; 0].

(** ** The sink: binary and text output of [main] *)

Module Sink.
Import Ascii String.
Local Open Scope string_scope.
Local Open Scope list_scope.
Local Open Scope Z_scope.

(** A newline in front of [s]. *)
Definition nl (s : string) : string := String "010"%char s.

(** The separator of the default text mode. *)
Definition dot : ascii := "."%char.

(** The table [encd] of main.go. *)
Definition encd : list string :=
  [ ".0"; ".1"; ".2"; ".3"; ".4"; ".5"; ".6"; ".7"; ".8"; ".9"; ".10"; ".11"; ".12"; ".13"; ".14"; ".15";
    ".16"; ".17"; ".18"; ".19"; ".20"; ".21"; ".22"; ".23"; ".24"; ".25"; ".26"; ".27"; ".28"; ".29"; ".30"; ".31";
    ".32"; ".33"; ".34"; ".35"; ".36"; ".37"; ".38"; ".39"; ".40"; ".41"; ".42"; ".43"; ".44"; ".45"; ".46"; ".47";
    ".48"; ".49"; ".50"; ".51"; ".52"; ".53"; ".54"; ".55"; ".56"; ".57"; ".58"; ".59"; ".60"; ".61"; ".62"; ".63";
    ".64"; ".65"; ".66"; ".67"; ".68"; ".69"; ".70"; ".71"; ".72"; ".73"; ".74"; ".75"; ".76"; ".77"; ".78"; ".79";
    ".80"; ".81"; ".82"; ".83"; ".84"; ".85"; ".86"; ".87"; ".88"; ".89"; ".90"; ".91"; ".92"; ".93"; ".94"; ".95";
    ".96"; ".97"; ".98"; ".99"; ".100"; ".101"; ".102"; ".103"; ".104"; ".105"; ".106"; ".107"; ".108"; ".109"; ".110"; ".111";
    ".112"; ".113"; ".114"; ".115"; ".116"; ".117"; ".118"; ".119"; ".120"; ".121"; ".122"; ".123"; ".124"; ".125"; ".126"; ".127";
    ".128"; ".129"; ".130"; ".131"; ".132"; ".133"; ".134"; ".135"; ".136"; ".137"; ".138"; ".139"; ".140"; ".141"; ".142"; ".143";
    ".144"; ".145"; ".146"; ".147"; ".148"; ".149"; ".150"; ".151"; ".152"; ".153"; ".154"; ".155"; ".156"; ".157"; ".158"; ".159";
    ".160"; ".161"; ".162"; ".163"; ".164"; ".165"; ".166"; ".167"; ".168"; ".169"; ".170"; ".171"; ".172"; ".173"; ".174"; ".175";
    ".176"; ".177"; ".178"; ".179"; ".180"; ".181"; ".182"; ".183"; ".184"; ".185"; ".186"; ".187"; ".188"; ".189"; ".190"; ".191";
    ".192"; ".193"; ".194"; ".195"; ".196"; ".197"; ".198"; ".199"; ".200"; ".201"; ".202"; ".203"; ".204"; ".205"; ".206"; ".207";
    ".208"; ".209"; ".210"; ".211"; ".212"; ".213"; ".214"; ".215"; ".216"; ".217"; ".218"; ".219"; ".220"; ".221"; ".222"; ".223";
    ".224"; ".225"; ".226"; ".227"; ".228"; ".229"; ".230"; ".231"; ".232"; ".233"; ".234"; ".235"; ".236"; ".237"; ".238"; ".239";
    ".240"; ".241"; ".242"; ".243"; ".244"; ".245"; ".246"; ".247"; ".248"; ".249"; ".250"; ".251"; ".252"; ".253"; ".254"; ".255" ].

(** The same table with a newline in front of each term. *)
Definition encn : list string :=
  [ nl "0"; nl "1"; nl "2"; nl "3"; nl "4"; nl "5"; nl "6"; nl "7"; nl "8"; nl "9"; nl "10"; nl "11"; nl "12"; nl "13"; nl "14"; nl "15";
    nl "16"; nl "17"; nl "18"; nl "19"; nl "20"; nl "21"; nl "22"; nl "23"; nl "24"; nl "25"; nl "26"; nl "27"; nl "28"; nl "29"; nl "30"; nl "31";
    nl "32"; nl "33"; nl "34"; nl "35"; nl "36"; nl "37"; nl "38"; nl "39"; nl "40"; nl "41"; nl "42"; nl "43"; nl "44"; nl "45"; nl "46"; nl "47";
    nl "48"; nl "49"; nl "50"; nl "51"; nl "52"; nl "53"; nl "54"; nl "55"; nl "56"; nl "57"; nl "58"; nl "59"; nl "60"; nl "61"; nl "62"; nl "63";
    nl "64"; nl "65"; nl "66"; nl "67"; nl "68"; nl "69"; nl "70"; nl "71"; nl "72"; nl "73"; nl "74"; nl "75"; nl "76"; nl "77"; nl "78"; nl "79";
    nl "80"; nl "81"; nl "82"; nl "83"; nl "84"; nl "85"; nl "86"; nl "87"; nl "88"; nl "89"; nl "90"; nl "91"; nl "92"; nl "93"; nl "94"; nl "95";
    nl "96"; nl "97"; nl "98"; nl "99"; nl "100"; nl "101"; nl "102"; nl "103"; nl "104"; nl "105"; nl "106"; nl "107"; nl "108"; nl "109"; nl "110"; nl "111";
    nl "112"; nl "113"; nl "114"; nl "115"; nl "116"; nl "117"; nl "118"; nl "119"; nl "120"; nl "121"; nl "122"; nl "123"; nl "124"; nl "125"; nl "126"; nl "127";
    nl "128"; nl "129"; nl "130"; nl "131"; nl "132"; nl "133"; nl "134"; nl "135"; nl "136"; nl "137"; nl "138"; nl "139"; nl "140"; nl "141"; nl "142"; nl "143";
    nl "144"; nl "145"; nl "146"; nl "147"; nl "148"; nl "149"; nl "150"; nl "151"; nl "152"; nl "153"; nl "154"; nl "155"; nl "156"; nl "157"; nl "158"; nl "159";
    nl "160"; nl "161"; nl "162"; nl "163"; nl "164"; nl "165"; nl "166"; nl "167"; nl "168"; nl "169"; nl "170"; nl "171"; nl "172"; nl "173"; nl "174"; nl "175";
    nl "176"; nl "177"; nl "178"; nl "179"; nl "180"; nl "181"; nl "182"; nl "183"; nl "184"; nl "185"; nl "186"; nl "187"; nl "188"; nl "189"; nl "190"; nl "191";
    nl "192"; nl "193"; nl "194"; nl "195"; nl "196"; nl "197"; nl "198"; nl "199"; nl "200"; nl "201"; nl "202"; nl "203"; nl "204"; nl "205"; nl "206"; nl "207";
    nl "208"; nl "209"; nl "210"; nl "211"; nl "212"; nl "213"; nl "214"; nl "215"; nl "216"; nl "217"; nl "218"; nl "219"; nl "220"; nl "221"; nl "222"; nl "223";
    nl "224"; nl "225"; nl "226"; nl "227"; nl "228"; nl "229"; nl "230"; nl "231"; nl "232"; nl "233"; nl "234"; nl "235"; nl "236"; nl "237"; nl "238"; nl "239";
    nl "240"; nl "241"; nl "242"; nl "243"; nl "244"; nl "245"; nl "246"; nl "247"; nl "248"; nl "249"; nl "250"; nl "251"; nl "252"; nl "253"; nl "254"; nl "255" ].

(** [encs[term]] *)
Definition entry (encs : list string) (t : Z) : string :=
  nth (Z.to_nat t) encs EmptyString.

(** [s[1:]] *)
Definition drop1 (s : string) : string :=
  match s with
  | String _ r => r
  | EmptyString => EmptyString
  end.

(** Binary mode: [w.WriteByte(term)] for each term received. *)
Definition main_bin (ts : list Z) : list Z :=
  fold_left (fun w term => w ++ [term]) ts [].

(** Text mode: the first term received is written without the first
    character of its entry, every later term with its whole entry.  A
    receive from the closed, empty channel yields 0. *)
Definition main_text (n : bool) (ts : list Z) : string :=
  let encs := if n then encn else encd in
  fold_left (fun w term => append w (entry encs term)) (tl ts)
            (drop1 (entry encs (hd 0 ts))).

Inductive output : Type :=
| Bytes (l : list Z)
| Text (s : string).

(** What [main] writes for the flags [-bin] and [-n]. *)
Definition main (bin n : bool) : output :=
  if bin then Bytes (main_bin terms) else Text (main_text n terms).

(** *** Reading the text back *)

(** The fields of [s] between the occurrences of [sep]. *)
Fixpoint split (sep : ascii) (s : string) : list string :=
  match s with
  | EmptyString => [EmptyString]
  | String c r =>
      if Ascii.eqb c sep then EmptyString :: split sep r
      else match split sep r with
           | f :: fs => String c f :: fs
           | [] => [String c EmptyString]
           end
  end.

Definition digit_of (c : ascii) : option Z :=
  let n := Z.of_N (N_of_ascii c) in
  if (48 <=? n) && (n <=? 57) then Some (n - 48) else None.

Fixpoint parse_from (acc : Z) (s : string) : option Z :=
  match s with
  | EmptyString => Some acc
  | String c r =>
      match digit_of c with
      | Some d => parse_from (10 * acc + d) r
      | None => None
      end
  end.

(** A nonempty string of decimal digits read as an integer. *)
Definition parse_dec (s : string) : option Z :=
  match s with
  | EmptyString => None
  | _ => parse_from 0 s
  end.

Fixpoint no_sep (sep : ascii) (s : string) : bool :=
  match s with
  | EmptyString => true
  | String c r => negb (Ascii.eqb c sep) && no_sep sep r
  end.

Fixpoint cat (l : list string) : string :=
  match l with
  | [] => EmptyString
  | s :: r => append s (cat r)
  end.

(** The entry of [t] in [encd] is a dot and the decimal digits of [t]. *)
Definition entry_ok (t : nat) : bool :=
  match nth t encd EmptyString with
  | String c digits =>
      Ascii.eqb c "."%char && no_sep "."%char digits &&
      match parse_dec digits with
      | Some v => v =? Z.of_nat t
      | None => false
      end
  | EmptyString => false
  end.

End Sink.

(** * Notions used to state the properties *)

(** ** Lyndon words of length 4 *)

(** The classification rule in the comment of [terms], for [u = (a, b, c, d)]. *)
Definition lyndon_rule (a b c d : Z) : bool :=
  if (a >? b) || (a >? c) || (a >? d) then false
  else if a =? d then false
  else if a =? c then b <? d
  else true.

Definition rot (u : word) : word := Word (u1 u) (u2 u) (u3 u) (u0 u).

(** A word is a Lyndon word if it is strictly below each of its three
    nontrivial rotations. *)
Definition lyndon_rot (u : word) : Prop :=
  lex_lt u (rot u) /\ lex_lt u (rot (rot u)) /\ lex_lt u (rot (rot (rot u))).

(** ** The shapes of the working word *)

Definition single (u : word) : Prop :=
  u0 u = u1 u /\ u1 u = u2 u /\ u2 u = u3 u.

Definition two_cycle (u : word) : Prop :=
  u0 u = u2 u /\ u1 u = u3 u /\ u0 u < u1 u.

Definition lyndon4 (u : word) : Prop :=
  lyndon_rule (u0 u) (u1 u) (u2 u) (u3 u) = true.

Definition shape (u : word) : Prop := single u \/ two_cycle u \/ lyndon4 u.

(** The Lyndon word that the working word stands for. *)
Definition word_of (u : word) : list Z :=
  if (u0 u =? u1 u) && (u1 u =? u2 u) && (u2 u =? u3 u) then [u0 u]
  else if (u0 u =? u2 u) && (u1 u =? u3 u) then [u0 u; u1 u]
  else [u0 u; u1 u; u2 u; u3 u].

(** The words at the top of the iterations of the main loop. *)
Inductive reachable : word -> Prop :=
| reach_init : reachable zero_word
| reach_step u : reachable u -> u0 u <> 255 -> reachable (next u).

(** The word after [n] iterations. *)
Definition word_at (n : nat) : word := Nat.iter n next zero_word.

(** The loop has not exited before iteration [n]. *)
Definition running (n : nat) : Prop :=
  forall m, (m < n)%nat -> u0 (word_at m) <> 255.

(** ** Windows, counts and runs *)

(** The windows at the consecutive positions of a list, in order. *)
Fixpoint windows4 (l : list Z) : list word :=
  match l with
  | [] => []
  | a :: t =>
      match t with
      | b :: c :: d :: _ => [Word a b c d]
      | _ => []
      end ++ windows4 t
  end.

(** The 256 bytes, in order. *)
Definition bytes : list Z := map Z.of_nat (seq 0 256).

(** Every 4-tuple of bytes, each once. *)
Definition all_words : list word :=
  flat_map (fun a =>
    flat_map (fun b =>
      flat_map (fun c =>
        map (fun d => Word a b c d) bytes) bytes) bytes) bytes.

(** The stream from the word of [u] on. *)
Definition stream_from (u : word) : list Z := word_of u ++ rest_from u.

(** [t] is a window of the stream. *)
Definition occurs (t : word) : Prop := In t (windows4 terms).

Definition is_byte (x : Z) : Prop := 0 <= x < 256.

(** The number of terms still to come after the word of [u]. *)
Definition count (u : word) : Z := Z.of_nat (length (rest_from u)).

(** ** The loop body with every increment checked *)

(** The body of the loop once more, with [x++] refused where it would wrap:
    [None] stands for an increment of a slot that holds 255. *)
Definition incr_checked (x : Z) : option Z :=
  if x =? 255 then None else Some (x + 1).

Notation "x <- c ;; k" :=
  (match c with Some x => k | None => None end)
    (at level 61, c at next level, right associativity).

Definition saturated_checked (u : word) : option ((word * list Z) + word) :=
  if u3 u =? 255 then
    if u2 u =? 255 then
      if u1 u =? 255 then
        a <- incr_checked (u0 u) ;;
        Some (inl (Word a a a a, [a]))
      else
        b <- incr_checked (u1 u) ;;
        Some (inl (Word (u0 u) b (u0 u) b, [u0 u; b]))
    else
      c <- incr_checked (u2 u) ;;
      Some (inr (Word (u0 u) (u1 u) c (u0 u)))
  else Some (inr u).

Definition four_checked (u : word) : option (word * list Z) :=
  d <- incr_checked (u3 u) ;;
  Some (Word (u0 u) (u1 u) (u2 u) d, [u0 u; u1 u; u2 u; d]).

Definition body_checked (u : word) : option (word * list Z) :=
  r <- saturated_checked u ;;
  match r with
  | inl r => Some r
  | inr v => four_checked v
  end.

(** ** The run and the cycle *)

(** The terms sent by the first [n] iterations. *)
Definition sent_upto (n : nat) : list Z :=
  flat_map (fun i => sent (word_at i)) (seq 0 n).

(** The cyclic sequence: the stream without its three closing terms. *)
Definition cycle : list Z := 0 :: loop_from zero_word.

(** * Lemmas *)

(** ** The loop body on concrete words *)

Example body_four_ex : body (Word 0 0 0 0) = (Word 0 0 0 1, [0; 0; 0; 1]).
Proof. reflexivity. Qed.

Example body_skip_ex : body (Word 0 0 0 255) = (Word 0 0 1 1, [0; 0; 1; 1]).
Proof. reflexivity. Qed.

Example body_two_ex : body (Word 0 0 255 255) = (Word 0 1 0 1, [0; 1]).
Proof. reflexivity. Qed.

Example body_one_ex : body (Word 0 255 255 255) = (Word 1 1 1 1, [1]).
Proof. reflexivity. Qed.

Example body_two_skip_ex :
  body (Word 7 255 7 255) = (Word 7 255 8 8, [7; 255; 8; 8]).
Proof. reflexivity. Qed.

(** ** Unfolding the loop *)

Lemma loop_irrel u (H1 H2 : inrange u) : loop u H1 = loop u H2.
Proof. rewrite (inrange_irrel u H1 H2). reflexivity. Qed.

Lemma loop_from_loop u (Hr : inrange u) : loop_from u = loop u Hr.
Proof.
  unfold loop_from. destruct (bool_dec (inrangeb u) true) as [H|H].
  - apply loop_irrel.
  - contradiction.
Qed.

Lemma loop_from_exit u : inrange u -> u0 u = 255 -> loop_from u = [].
Proof.
  intros Hr H0. rewrite (loop_from_loop u Hr). simp loop.
  destruct (Z.eq_dec (u0 u) 255); [reflexivity | contradiction].
Qed.

Lemma loop_from_step u :
  inrange u -> u0 u <> 255 -> loop_from u = sent u ++ loop_from (next u).
Proof.
  intros Hr H0. rewrite (loop_from_loop u Hr). simp loop.
  destruct (Z.eq_dec (u0 u) 255) as [E|E]; [contradiction|].
  cbn. now rewrite (loop_from_loop (next u) (next_inrange u Hr E)).
Qed.

Lemma terms_eq : terms = 0 :: rest_from zero_word.
Proof.
  unfold terms, rest_from.
  now rewrite (loop_from_loop zero_word zero_word_inrange).
Qed.

Lemma rest_from_exit u : inrange u -> u0 u = 255 -> rest_from u = [0; 0; 0].
Proof. intros Hr H0. unfold rest_from. now rewrite loop_from_exit. Qed.

Lemma rest_from_step u :
  inrange u -> u0 u <> 255 -> rest_from u = sent u ++ rest_from (next u).
Proof.
  intros Hr H0. unfold rest_from.
  now rewrite (loop_from_step u Hr H0), <- app_assoc.
Qed.

(** Induction along the loop: from the exit backwards. *)
Lemma loop_ind (P : word -> Prop) :
  (forall u, inrange u -> u0 u = 255 -> P u) ->
  (forall u, inrange u -> u0 u <> 255 -> P (next u) -> P u) ->
  forall u, inrange u -> P u.
Proof.
  intros Hexit Hstep u.
  induction u as [u IH] using (well_founded_induction
                                 (wf_inverse_image _ _ _ gap Nat.lt_wf_0)).
  intros Hr. destruct (Z.eq_dec (u0 u) 255) as [E|E].
  - now apply Hexit.
  - apply Hstep; trivial. apply IH.
    + pose proof (val_next u Hr E).
      pose proof (val_bound _ (next_inrange u Hr E)).
      pose proof (val_bound _ Hr).
      unfold gap. lia.
    + now apply next_inrange.
Qed.

(** ** The shape invariant *)

Lemma lyndon_rule_iff a b c d :
  lyndon_rule a b c d = true <-> a <= b /\ a <= c /\ a < d /\ (a = c -> b < d).
Proof.
  unfold lyndon_rule.
  destruct (Z.gtb_spec a b), (Z.gtb_spec a c), (Z.gtb_spec a d);
    cbn [orb]; try (split; [discriminate | lia]).
  destruct (Z.eqb_spec a d); [split; [discriminate | lia]|].
  destruct (Z.eqb_spec a c).
  - rewrite Z.ltb_lt. lia.
  - split; [lia | reflexivity].
Qed.

Lemma lyndon4_iff u :
  lyndon4 u <->
  u0 u <= u1 u /\ u0 u <= u2 u /\ u0 u < u3 u /\ (u0 u = u2 u -> u1 u < u3 u).
Proof. apply lyndon_rule_iff. Qed.

Ltac shape_facts :=
  unfold shape, single, two_cycle in *;
  rewrite ?lyndon4_iff in *;
  cbn [u0 u1 u2 u3] in *.

Lemma shape_zero : shape zero_word.
Proof. left. repeat split. Qed.

Lemma shape_next u : inrange u -> u0 u <> 255 -> shape u -> shape (next u).
Proof.
  intros Hr H0 Hs. pose proof (body_cases u Hr H0) as Hb.
  unfold next. word_facts.
  destruct (branch_of u); decompose [and] Hb; clear Hb;
    match goal with E : body u = _ |- _ => rewrite E end;
    shape_facts; cbn [fst u0 u1 u2 u3]; lia.
Qed.

Lemma reachable_inrange u : reachable u -> inrange u.
Proof.
  induction 1; [exact zero_word_inrange | now apply next_inrange].
Qed.

Lemma reachable_shape u : reachable u -> shape u.
Proof.
  induction 1 as [|u Hu IH H0]; [exact shape_zero|].
  apply shape_next; auto using reachable_inrange.
Qed.

Lemma word_at_S n : word_at (S n) = next (word_at n).
Proof. reflexivity. Qed.

Lemma word_at_reachable n : running n -> reachable (word_at n).
Proof.
  induction n as [|n IH]; intros Hn; [constructor|].
  rewrite word_at_S. apply reach_step.
  - apply IH. intros m Hm. apply Hn. lia.
  - apply Hn. lia.
Qed.

Lemma reachable_word_at u :
  reachable u -> exists n, running n /\ word_at n = u.
Proof.
  induction 1 as [|u Hu [n [Hn En]] H0].
  - exists 0%nat. split; [intros m Hm; lia | reflexivity].
  - exists (S n). split.
    + intros m Hm. destruct (Nat.eq_dec m n) as [->|Hne].
      * now rewrite En.
      * apply Hn. lia.
    + now rewrite word_at_S, En.
Qed.

(** ** The four branches, one by one *)

Section Branches.
Variables a b c d : Z.
Hypothesis Ha : 0 <= a < 255.

Lemma body_four :
  0 <= b < 256 -> 0 <= c < 256 -> 0 <= d < 255 ->
  body (Word a b c d) = (Word a b c (d + 1), [a; b; c; d + 1]).
Proof.
  intros Hb Hc Hd. unfold body, saturated, four. cbn [u0 u1 u2 u3].
  eqb_cases; try lia. cbn -[incr Z.add]. now rewrite !incr_small by lia.
Qed.

Lemma body_skip :
  0 <= b < 256 -> 0 <= c < 255 ->
  body (Word a b c 255) = (Word a b (c + 1) (a + 1), [a; b; c + 1; a + 1]).
Proof.
  intros Hb Hc. unfold body, saturated, four. cbn [u0 u1 u2 u3].
  eqb_cases; try lia. cbn -[incr Z.add]. now rewrite !incr_small by lia.
Qed.

Lemma body_two :
  0 <= b < 255 ->
  body (Word a b 255 255) = (Word a (b + 1) a (b + 1), [a; b + 1]).
Proof.
  intros Hb. unfold body, saturated, four. cbn [u0 u1 u2 u3].
  eqb_cases; try lia. cbn -[incr Z.add]. now rewrite !incr_small by lia.
Qed.

Lemma body_one :
  body (Word a 255 255 255) =
  (Word (a + 1) (a + 1) (a + 1) (a + 1), [a + 1]).
Proof.
  unfold body, saturated, four. cbn -[incr Z.add].
  now rewrite !incr_small by lia.
Qed.

Lemma rest_four :
  0 <= b < 256 -> 0 <= c < 256 -> 0 <= d < 255 ->
  rest_from (Word a b c d) = [a; b; c; d + 1] ++ rest_from (Word a b c (d + 1)).
Proof.
  intros Hb Hc Hd. rewrite rest_from_step.
  - unfold sent, next. now rewrite body_four.
  - apply inrange_Word. lia.
  - cbn. lia.
Qed.

Lemma rest_skip :
  0 <= b < 256 -> 0 <= c < 255 ->
  rest_from (Word a b c 255) =
  [a; b; c + 1; a + 1] ++ rest_from (Word a b (c + 1) (a + 1)).
Proof.
  intros Hb Hc. rewrite rest_from_step.
  - unfold sent, next. now rewrite body_skip.
  - apply inrange_Word. lia.
  - cbn. lia.
Qed.

Lemma rest_two :
  0 <= b < 255 ->
  rest_from (Word a b 255 255) =
  [a; b + 1] ++ rest_from (Word a (b + 1) a (b + 1)).
Proof.
  intros Hb. rewrite rest_from_step.
  - unfold sent, next. now rewrite body_two.
  - apply inrange_Word. lia.
  - cbn. lia.
Qed.

Lemma rest_one :
  rest_from (Word a 255 255 255) =
  [a + 1] ++ rest_from (Word (a + 1) (a + 1) (a + 1) (a + 1)).
Proof.
  rewrite rest_from_step.
  - unfold sent, next. now rewrite body_one.
  - apply inrange_Word. lia.
  - cbn. lia.
Qed.
End Branches.

Lemma rest_last : rest_from (Word 255 255 255 255) = [0; 0; 0].
Proof. now apply rest_from_exit. Qed.

(** The end of the stream, from the last 2-element word on. *)
Example rest_end_ex :
  rest_from (Word 254 255 254 255) = [254; 255; 255; 255; 255; 0; 0; 0].
Proof.
  rewrite rest_skip by lia. change (254 + 1) with 255.
  rewrite rest_one by lia. change (254 + 1) with 255.
  now rewrite rest_last.
Qed.

(** ** Counting the terms *)

Lemma count_app l u v :
  rest_from u = l ++ rest_from v -> count u = Z.of_nat (length l) + count v.
Proof. intros E. unfold count. rewrite E, length_app. lia. Qed.

(** Induction downwards from 255. *)
Lemma down_ind (P : Z -> Prop) :
  P 255 -> (forall x, 0 <= x < 255 -> P (x + 1) -> P x) ->
  forall x, 0 <= x <= 255 -> P x.
Proof.
  intros H255 Hstep x Hx.
  assert (Hall : forall m, 0 <= m -> m <= 255 -> P (255 - m)).
  { apply (natlike_ind (fun m => m <= 255 -> P (255 - m))).
    - intros _. exact H255.
    - intros y Hy IH Hy1. apply Hstep; [lia|].
      replace (255 - Z.succ y + 1) with (255 - y) by lia. apply IH. lia. }
  replace x with (255 - (255 - x)) by lia. apply Hall; lia.
Qed.

Section Counting.
Variable a : Z.
Hypothesis Ha : 0 <= a < 255.

(** The run of 4-element words that only raise [u[3]]. *)
Lemma count_four b c d :
  0 <= b < 256 -> 0 <= c < 256 -> 0 <= d <= 255 ->
  count (Word a b c d) = 4 * (255 - d) + count (Word a b c 255).
Proof.
  intros Hb Hc Hd. revert d Hd. apply down_ind; [lia|].
  intros d Hd IH.
  rewrite (count_app _ _ _ (rest_four a b c d Ha Hb Hc Hd)).
  rewrite IH. cbn [length]. lia.
Qed.

(** All 4-element words with the first two slots fixed. *)
Lemma count_skip b c :
  0 <= b < 256 -> 0 <= c <= 255 ->
  count (Word a b c 255) =
  4 * (255 - a) * (255 - c) + count (Word a b 255 255).
Proof.
  intros Hb. revert c. apply down_ind; [lia|].
  intros c Hc IH.
  rewrite (count_app _ _ _ (rest_skip a b c Ha Hb Hc)).
  rewrite count_four by lia. rewrite IH. cbn [length]. lia.
Qed.

(** All words with the first slot fixed, from the 2-element ones on. *)
Lemma count_two b :
  0 <= b <= 255 ->
  count (Word a b 255 255) =
  (255 - b) * (2 + 4 * (255 - a) * (255 - a)) + 2 * (255 - b) * (254 - b)
  + count (Word a 255 255 255).
Proof.
  revert b. apply down_ind; [lia|].
  intros b Hb IH.
  rewrite (count_app _ _ _ (rest_two a b Ha Hb)).
  rewrite count_four by lia. rewrite count_skip by lia.
  rewrite IH. cbn [length]. ring.
Qed.
End Counting.

(** From a 1-element word to the end of the stream. *)
Lemma count_single a :
  0 <= a <= 255 ->
  count (Word a a a a) = (256 - a) * (256 - a) * (256 - a) * (256 - a) + 2.
Proof.
  revert a. apply down_ind.
  - unfold count. now rewrite rest_last.
  - intros a Ha IH.
    rewrite count_four by lia. rewrite count_skip by lia.
    rewrite count_two by lia.
    rewrite (count_app _ _ _ (rest_one a Ha)).
    rewrite IH. cbn [length]. ring.
Qed.

Lemma length_terms : Z.of_nat (length terms) = 4294967296 + 3.
Proof.
  rewrite terms_eq. cbn [length]. rewrite Nat2Z.inj_succ.
  fold (count zero_word). unfold zero_word. rewrite count_single by lia.
  reflexivity.
Qed.

(** ** Windows of four consecutive terms *)

Lemma windows4_cons x l t : In t (windows4 l) -> In t (windows4 (x :: l)).
Proof. intros H. cbn [windows4]. apply in_or_app. now right. Qed.

Lemma windows4_app_r l1 l2 t :
  In t (windows4 l2) -> In t (windows4 (l1 ++ l2)).
Proof.
  intros H. induction l1 as [|x l1 IH]; [exact H|].
  cbn [app]. now apply windows4_cons.
Qed.

Lemma windows4_length l :
  Z.of_nat (length (windows4 l)) = Z.max 0 (Z.of_nat (length l) - 3).
Proof.
  induction l as [|a l IH]; [reflexivity|].
  cbn [windows4]. rewrite length_app, Nat2Z.inj_add, IH.
  destruct l as [|b [|c [|d l]]]; cbn [length]; lia.
Qed.

Lemma windows4_bytes l t :
  Forall (fun x => 0 <= x < 256) l -> In t (windows4 l) -> inrange t.
Proof.
  induction 1 as [|a l Ha Hl IH]; [intros []|].
  cbn [windows4]. intros H. apply in_app_or in H. destruct H as [H|H]; auto.
  destruct l as [|b [|c [|d l]]]; try contradiction.
  destruct H as [<-|[]].
  inversion Hl as [|? ? Hb Hl1]; subst.
  inversion Hl1 as [|? ? Hc Hl2]; subst.
  inversion Hl2 as [|? ? Hd Hl3]; subst.
  apply inrange_Word. lia.
Qed.

(** ** The stream as the concatenation of the words *)

Lemma word_of_single a : word_of (Word a a a a) = [a].
Proof. unfold word_of. cbn [u0 u1 u2 u3]. now rewrite Z.eqb_refl. Qed.

Lemma word_of_two a b : a <> b -> word_of (Word a b a b) = [a; b].
Proof.
  intros H. unfold word_of. cbn [u0 u1 u2 u3]. rewrite !Z.eqb_refl.
  destruct (Z.eqb_spec a b); [contradiction | reflexivity].
Qed.

Lemma word_of_four a b c d :
  lyndon4 (Word a b c d) -> word_of (Word a b c d) = [a; b; c; d].
Proof.
  intros H. apply lyndon4_iff in H. cbn [u0 u1 u2 u3] in H.
  unfold word_of. cbn [u0 u1 u2 u3].
  destruct (Z.eqb_spec a b), (Z.eqb_spec b c), (Z.eqb_spec c d),
    (Z.eqb_spec a c), (Z.eqb_spec b d); cbn [andb]; try reflexivity; lia.
Qed.

Lemma terms_stream : terms = stream_from zero_word.
Proof. rewrite terms_eq. reflexivity. Qed.

(** The terms an iteration sends are the word of the new working word. *)
Lemma sent_word_of u :
  inrange u -> u0 u <> 255 -> shape u -> sent u = word_of (next u).
Proof.
  intros Hr H0 Hs. pose proof (body_cases u Hr H0) as Hb.
  unfold next, sent. word_facts.
  destruct (branch_of u); decompose [and] Hb; clear Hb;
    match goal with E : body u = _ |- _ => rewrite E end; cbn [fst snd].
  - now rewrite word_of_single.
  - rewrite word_of_two; [reflexivity|]. shape_facts. lia.
  - rewrite word_of_four; [reflexivity|]. apply lyndon4_iff.
    shape_facts. cbn [u0 u1 u2 u3]. lia.
  - rewrite word_of_four; [reflexivity|]. apply lyndon4_iff.
    shape_facts. cbn [u0 u1 u2 u3]. lia.
Qed.

Lemma stream_from_step u :
  inrange u -> u0 u <> 255 -> shape u ->
  stream_from u = word_of u ++ stream_from (next u).
Proof.
  intros Hr H0 Hs. unfold stream_from.
  now rewrite (rest_from_step u Hr H0), (sent_word_of u Hr H0 Hs).
Qed.

Lemma reachable_stream u :
  reachable u -> exists pre, terms = pre ++ stream_from u.
Proof.
  induction 1 as [|u Hu [pre E] H0].
  - exists []. apply terms_stream.
  - exists (pre ++ word_of u). rewrite E, <- app_assoc. f_equal.
    apply stream_from_step; auto using reachable_inrange, reachable_shape.
Qed.

(** ** Every word of the three shapes is reached *)

Lemma shape_pred u :
  inrange u -> shape u -> u <> zero_word ->
  exists p, inrange p /\ shape p /\ u0 p <> 255 /\ next p = u /\ val p < val u.
Proof.
  intros Hr Hs Hz. destruct u as [a b c d]. word_facts.
  assert (Hcases :
    (a = b /\ b = c /\ c = d /\ 0 < a) \/
    (a = c /\ b = d /\ a < b) \/
    (lyndon4 (Word a b c d) /\ d = a + 1 /\ ~ (a = b /\ b = c)) \/
    (lyndon4 (Word a b c d) /\ (d <> a + 1 \/ (a = b /\ b = c)))).
  { shape_facts. destruct Hs as [Hs|[Hs|Hs]].
    - left. assert (a <> 0) by (intros ->; apply Hz; unfold zero_word;
        f_equal; lia). lia.
    - right; left. lia.
    - destruct (Z.eq_dec d (a + 1)); [|right; right; right; split; [lia|lia]].
      destruct (Z.eq_dec a b); [|right; right; left; lia].
      destruct (Z.eq_dec b c); [|right; right; left; lia].
      right; right; right. lia. }
  destruct Hcases as [H|[H|[[Hl H]|[Hl H]]]].
  - exists (Word (a - 1) 255 255 255).
    unfold next. rewrite body_one by lia. unfold val. shape_facts.
    cbn [fst u0 u1 u2 u3]. rewrite inrange_Word.
    repeat split; try lia. f_equal; lia.
  - exists (Word a (b - 1) 255 255).
    unfold next. rewrite body_two by lia. unfold val. shape_facts.
    cbn [fst u0 u1 u2 u3]. rewrite inrange_Word.
    repeat split; try lia. f_equal; lia.
  - apply lyndon4_iff in Hl. cbn [u0 u1 u2 u3] in Hl.
    exists (Word a b (c - 1) 255).
    unfold next. rewrite body_skip by lia. unfold val. shape_facts.
    cbn [fst u0 u1 u2 u3]. rewrite inrange_Word.
    repeat split; try lia. f_equal; lia.
  - apply lyndon4_iff in Hl. cbn [u0 u1 u2 u3] in Hl.
    exists (Word a b c (d - 1)).
    unfold next. rewrite body_four by lia. unfold val. shape_facts.
    cbn [fst u0 u1 u2 u3]. rewrite inrange_Word.
    repeat split; try lia. f_equal; lia.
Qed.

Lemma shape_reachable u : inrange u -> shape u -> reachable u.
Proof.
  remember (Z.to_nat (val u)) as n eqn:En. revert u En.
  induction n as [n IH] using lt_wf_ind. intros u En Hr Hs.
  destruct (Z.eq_dec (val u) 0) as [E|E].
  - assert (u = zero_word) as ->; [|constructor].
    destruct u as [a b c d]. word_facts. unfold val in E.
    cbn [u0 u1 u2 u3] in E. unfold zero_word. f_equal; lia.
  - destruct (shape_pred u Hr Hs) as (p & Hpr & Hps & Hp0 & Hpn & Hpv).
    { intros ->. apply E. reflexivity. }
    rewrite <- Hpn. apply reach_step; trivial.
    apply (IH (Z.to_nat (val p))); trivial.
    pose proof (val_bound p Hpr). lia.
Qed.

(** ** Every 4-tuple of bytes is a window of the stream *)

Lemma occurs_at u t :
  inrange u -> shape u -> In t (windows4 (stream_from u)) -> occurs t.
Proof.
  intros Hr Hs Ht.
  destruct (reachable_stream u (shape_reachable u Hr Hs)) as [pre E].
  unfold occurs. rewrite E. now apply windows4_app_r.
Qed.

(** Unfold the stream at a word given in full, a few iterations deep. *)
Ltac expand_rest :=
  change (254 + 1) with 255;
  first [ rewrite rest_last
        | rewrite rest_one by lia
        | rewrite rest_two by lia
        | rewrite rest_skip by lia
        | rewrite rest_four by lia ].

Ltac expand :=
  unfold stream_from;
  first [ rewrite word_of_single
        | rewrite word_of_two by lia
        | rewrite word_of_four by (apply lyndon4_iff; cbn [u0 u1 u2 u3]; lia) ];
  do 2 try expand_rest.

(** Point at the window among the first ones of the unfolded stream. *)
Ltac pick :=
  cbn [app windows4 In];
  repeat first [ left; solve [ reflexivity | f_equal; lia ] | right ].

Ltac at_word u :=
  apply (occurs_at u);
  [ apply inrange_Word; lia
  | unfold shape, single, two_cycle; rewrite lyndon4_iff;
    cbn [u0 u1 u2 u3]; lia
  | expand; pick ].

Lemma occurs_single a : 0 <= a < 256 -> occurs (Word a a a a).
Proof.
  intros Ha. destruct (Z.eq_dec a 255) as [->|Ha1].
  - at_word (Word 254 255 255 255).
  - at_word (Word a a a a).
Qed.

Section Two.
Variables a b : Z.
Hypothesis Ha : 0 <= a.
Hypothesis Hab : a < b.
Hypothesis Hb : b < 256.

Lemma occurs_two_0 : occurs (Word a b a b).
Proof.
  destruct (Z.eq_dec b 255) as [E|E].
  - subst b. at_word (Word a 255 a 255).
  - at_word (Word a b a b).
Qed.

Lemma occurs_two_1 : occurs (Word b a b a).
Proof.
  destruct (Z.eq_dec b 255) as [E|E].
  - subst b. at_word (Word a 254 255 255).
  - at_word (Word a b a b).
Qed.
End Two.

Section Four.
Variables a b c d : Z.
Hypothesis Hr : inrange (Word a b c d).
Hypothesis Hl : lyndon4 (Word a b c d).

Lemma occurs_four_0 : occurs (Word a b c d).
Proof.
  apply inrange_Word in Hr. apply lyndon4_iff in Hl.
  cbn [u0 u1 u2 u3] in Hl.
  at_word (Word a b c d).
Qed.

Lemma occurs_four_1 : occurs (Word b c d a).
Proof.
  apply inrange_Word in Hr. apply lyndon4_iff in Hl.
  cbn [u0 u1 u2 u3] in Hl.
  destruct (Z.eq_dec d 255) as [Ed|Ed]; [subst d|at_word (Word a b c d)].
  destruct (Z.eq_dec c 255) as [Ec|Ec]; [subst c|at_word (Word a b c 255)].
  destruct (Z.eq_dec b 255) as [Eb|Eb]; [subst b|at_word (Word a b 255 255)].
  destruct (Z.eq_dec a 0) as [Ea|Ea]; [subst a|].
  - at_word (Word 254 255 255 255).
  - at_word (Word (a - 1) 255 255 255).
Qed.

Lemma occurs_four_2 : occurs (Word c d a b).
Proof.
  apply inrange_Word in Hr. apply lyndon4_iff in Hl.
  cbn [u0 u1 u2 u3] in Hl.
  destruct (Z.eq_dec d 255) as [Ed|Ed]; [subst d|at_word (Word a b c d)].
  destruct (Z.eq_dec c 255) as [Ec|Ec]; [subst c|at_word (Word a b c 255)].
  destruct (Z.eq_dec a b) as [Eb|Eb]; [subst b|at_word (Word a (b - 1) 255 255)].
  destruct (Z.eq_dec a 0) as [Ea|Ea]; [subst a|].
  - at_word (Word 254 255 255 255).
  - at_word (Word (a - 1) 255 255 255).
Qed.

Lemma occurs_four_3 : occurs (Word d a b c).
Proof.
  apply inrange_Word in Hr. apply lyndon4_iff in Hl.
  cbn [u0 u1 u2 u3] in Hl.
  destruct (Z.eq_dec d 255) as [Ed|Ed]; [subst d|at_word (Word a b c d)].
  destruct (Z.eq_dec a c) as [Ec|Ec]; [subst c|].
  - destruct (Z.eq_dec a b) as [Eb|Eb]; [subst b|at_word (Word a (b - 1) 255 255)].
    destruct (Z.eq_dec a 0) as [Ea|Ea]; [subst a|].
    + at_word (Word 254 255 255 255).
    + at_word (Word (a - 1) 255 255 255).
  - destruct (Z.eq_dec b 255) as [Eb|Eb]; [subst b|at_word (Word a b (c - 1) 255)].
    destruct (Z.eq_dec c (a + 1)) as [Ea|Ea]; [subst c|].
    + at_word (Word a 255 a 255).
    + at_word (Word a 255 (c - 1) 255).
Qed.
End Four.

(** Some rotation of a 4-tuple is its least one, a word of the three shapes. *)
Lemma shape_rotation w x y z :
  shape (Word w x y z) \/ shape (Word x y z w) \/
  shape (Word y z w x) \/ shape (Word z w x y).
Proof.
  assert (T : forall p q : Z, p < q \/ p = q \/ q < p) by lia.
  unfold shape, single, two_cycle. rewrite !lyndon4_iff.
  cbn [u0 u1 u2 u3].
  destruct (T w x) as [?|[?|?]], (T w y) as [?|[?|?]], (T w z) as [?|[?|?]];
    destruct (T x y) as [?|[?|?]], (T x z) as [?|[?|?]], (T y z) as [?|[?|?]];
    try (exfalso; lia);
    solve [ left; solve [left; lia | right; left; lia | right; right; lia]
          | right; left; solve [left; lia | right; left; lia | right; right; lia]
          | right; right; left;
            solve [left; lia | right; left; lia | right; right; lia]
          | right; right; right;
            solve [left; lia | right; left; lia | right; right; lia] ].
Qed.

Lemma occurs_shape a b c d :
  inrange (Word a b c d) -> shape (Word a b c d) ->
  occurs (Word a b c d) /\ occurs (Word b c d a) /\
  occurs (Word c d a b) /\ occurs (Word d a b c).
Proof.
  intros Hr [Hs|[Hs|Hs]].
  - unfold single in Hs. cbn [u0 u1 u2 u3] in Hs.
    destruct Hs as (-> & -> & ->). apply inrange_Word in Hr.
    repeat split; apply occurs_single; lia.
  - unfold two_cycle in Hs. cbn [u0 u1 u2 u3] in Hs.
    destruct Hs as (<- & <- & Hab). apply inrange_Word in Hr.
    repeat split;
      (apply occurs_two_0; lia) || (apply occurs_two_1; lia).
  - repeat split;
      auto using occurs_four_0, occurs_four_1, occurs_four_2, occurs_four_3.
Qed.

Lemma occurs_all t : inrange t -> occurs t.
Proof.
  destruct t as [w x y z]. intros Hr.
  assert (Hr' := Hr). apply inrange_Word in Hr'.
  destruct (shape_rotation w x y z) as [Hs|[Hs|[Hs|Hs]]].
  - now destruct (occurs_shape w x y z Hr Hs) as (H0 & _).
  - assert (Hq : inrange (Word x y z w)) by (apply inrange_Word; lia).
    now destruct (occurs_shape x y z w Hq Hs) as (_ & _ & _ & H3).
  - assert (Hq : inrange (Word y z w x)) by (apply inrange_Word; lia).
    now destruct (occurs_shape y z w x Hq Hs) as (_ & _ & H2 & _).
  - assert (Hq : inrange (Word z w x y)) by (apply inrange_Word; lia).
    now destruct (occurs_shape z w x y Hq Hs) as (_ & H1 & _).
Qed.

(** ** All terms are bytes *)

Lemma sent_bytes u : inrange u -> u0 u <> 255 -> Forall is_byte (sent u).
Proof.
  intros Hr H0. pose proof (body_cases u Hr H0) as Hb.
  unfold sent, is_byte. word_facts.
  destruct (branch_of u); decompose [and] Hb; clear Hb;
    match goal with E : body u = _ |- _ => rewrite E end; cbn [snd];
    repeat constructor; lia.
Qed.

Lemma rest_from_bytes u : inrange u -> Forall is_byte (rest_from u).
Proof.
  revert u. apply loop_ind.
  - intros u Hr H0. rewrite rest_from_exit by trivial.
    unfold is_byte. repeat constructor; lia.
  - intros u Hr H0 IH. rewrite rest_from_step by trivial.
    apply Forall_app. split; [now apply sent_bytes | exact IH].
Qed.

Lemma terms_bytes : Forall is_byte terms.
Proof.
  rewrite terms_eq. constructor; [unfold is_byte; lia|].
  apply rest_from_bytes, zero_word_inrange.
Qed.

(** ** The list of all 4-tuples of bytes *)

Lemma in_bytes x : In x bytes <-> 0 <= x < 256.
Proof.
  unfold bytes. rewrite in_map_iff. split.
  - intros (n & <- & Hn). apply in_seq in Hn. lia.
  - intros Hx. exists (Z.to_nat x). split; [lia|]. apply in_seq. lia.
Qed.

Lemma NoDup_bytes : NoDup bytes.
Proof.
  unfold bytes. apply Injective_map_NoDup; [|apply seq_NoDup].
  intros x y. apply Nat2Z.inj.
Qed.

Lemma length_bytes : Z.of_nat (length bytes) = 256.
Proof. unfold bytes. now rewrite length_map, length_seq. Qed.

Lemma in_all_words t : In t all_words <-> inrange t.
Proof.
  destruct t as [a b c d]. unfold all_words.
  rewrite inrange_Word, <- !in_bytes. rewrite in_flat_map. split.
  - intros (a' & Ha & H). apply in_flat_map in H. destruct H as (b' & Hb & H).
    apply in_flat_map in H. destruct H as (c' & Hc & H).
    apply in_map_iff in H. destruct H as (d' & E & Hd).
    injection E as <- <- <- <-. auto.
  - intros (Ha & Hb & Hc & Hd). exists a. split; trivial.
    apply in_flat_map. exists b. split; trivial.
    apply in_flat_map. exists c. split; trivial.
    apply in_map_iff. exists d. auto.
Qed.

Lemma NoDup_flat_map {A B} (f : A -> list B) (l : list A) :
  NoDup l -> (forall x, In x l -> NoDup (f x)) ->
  (forall x y z, In x l -> In y l -> In z (f x) -> In z (f y) -> x = y) ->
  NoDup (flat_map f l).
Proof.
  induction 1 as [|x l Hx Hl IH]; intros Hf Hd; [constructor|].
  cbn [flat_map]. apply NoDup_app.
  - apply Hf. now left.
  - apply IH.
    + intros y Hy. apply Hf. now right.
    + intros y1 y2 z H1 H2. apply Hd; now right.
  - intros z Hz Hz'. apply in_flat_map in Hz'. destruct Hz' as (y & Hy & Hzy).
    apply Hx. replace x with y; trivial.
    symmetry. apply (Hd x y z); trivial; [now left | now right].
Qed.

Lemma NoDup_all_words : NoDup all_words.
Proof.
  unfold all_words.
  apply NoDup_flat_map; [apply NoDup_bytes | |].
  - intros a _. apply NoDup_flat_map; [apply NoDup_bytes | |].
    + intros b _. apply NoDup_flat_map; [apply NoDup_bytes | |].
      * intros c _. apply Injective_map_NoDup; [|apply NoDup_bytes].
        intros d d' E. now injection E.
      * intros c c' t _ _ H H'.
        apply in_map_iff in H, H'. destruct H as (d & <- & _).
        destruct H' as (d' & E & _). now injection E.
    + intros b b' t _ _ H H'.
      apply in_flat_map in H, H'. destruct H as (c & _ & H).
      destruct H' as (c' & _ & H').
      apply in_map_iff in H, H'. destruct H as (d & <- & _).
      destruct H' as (d' & E & _). now injection E.
  - intros a a' t _ _ H H'.
    apply in_flat_map in H, H'. destruct H as (b & _ & H).
    destruct H' as (b' & _ & H').
    apply in_flat_map in H, H'. destruct H as (c & _ & H).
    destruct H' as (c' & _ & H').
    apply in_map_iff in H, H'. destruct H as (d & <- & _).
    destruct H' as (d' & E & _). now injection E.
Qed.

Lemma length_all_words : Z.of_nat (length all_words) = 4294967296.
Proof.
  unfold all_words.
  rewrite flat_map_constant_length
    with (c := (length bytes * (length bytes * length bytes))%nat).
  - rewrite !Nat2Z.inj_mul, length_bytes. reflexivity.
  - intros a _.
    rewrite flat_map_constant_length
      with (c := (length bytes * length bytes)%nat); [reflexivity|].
    intros b _.
    rewrite flat_map_constant_length with (c := length bytes); [reflexivity|].
    intros c _. apply length_map.
Qed.

(** ** The windows of the stream *)

Lemma length_windows : Z.of_nat (length (windows4 terms)) = 4294967296.
Proof. rewrite windows4_length, length_terms. reflexivity. Qed.

Lemma windows_iff t : In t (windows4 terms) <-> inrange t.
Proof.
  split.
  - apply windows4_bytes, terms_bytes.
  - apply occurs_all.
Qed.

Lemma NoDup_windows : NoDup (windows4 terms).
Proof.
  apply NoDup_incl_NoDup with (l := all_words).
  - apply NoDup_all_words.
  - apply Nat2Z.inj_le. rewrite length_windows, length_all_words. lia.
  - intros t Ht. apply windows_iff. now apply in_all_words.
Qed.

(** ** The text output read back *)

Module SinkFacts.
Import Ascii String Sink.
Local Open Scope string_scope.
Local Open Scope list_scope.
Local Open Scope Z_scope.

Lemma encd_ok : forallb entry_ok (seq 0 256) = true.
Proof. vm_compute. reflexivity. Qed.

Lemma entry_encd t :
  is_byte t ->
  exists digits,
    entry encd t = String "."%char digits /\
    no_sep "."%char digits = true /\ parse_dec digits = Some t.
Proof.
  intros Ht. unfold is_byte in Ht.
  assert (Hin : In (Z.to_nat t) (seq 0 256)) by (apply in_seq; lia).
  pose proof (proj1 (forallb_forall _ _) encd_ok _ Hin) as Hok.
  unfold entry_ok in Hok. unfold entry.
  destruct (nth (Z.to_nat t) encd EmptyString) as [|c digits]; [discriminate|].
  apply andb_true_iff in Hok. destruct Hok as [Hok Hp].
  apply andb_true_iff in Hok. destruct Hok as [Hc Hn].
  apply Ascii.eqb_eq in Hc. subst c. exists digits.
  repeat split; trivial.
  destruct (parse_dec digits) as [v|]; [|discriminate].
  apply Z.eqb_eq in Hp. f_equal. lia.
Qed.

Lemma append_nil_r s : append s EmptyString = s.
Proof. induction s as [|c s IH]; cbn; [reflexivity | now rewrite IH]. Qed.

Lemma append_assoc s1 s2 s3 :
  append (append s1 s2) s3 = append s1 (append s2 s3).
Proof. induction s1 as [|c s1 IH]; cbn; [reflexivity | now rewrite IH]. Qed.

Lemma fold_append (f : Z -> string) l acc :
  fold_left (fun w term => append w (f term)) l acc = append acc (cat (map f l)).
Proof.
  revert acc. induction l as [|t l IH]; intros acc; cbn [fold_left map cat].
  - now rewrite append_nil_r.
  - now rewrite IH, append_assoc.
Qed.

Lemma fold_write_byte (l acc : list Z) :
  fold_left (fun w term => w ++ [term]) l acc = acc ++ l.
Proof.
  revert acc. induction l as [|t l IH]; intros acc; cbn [fold_left].
  - now rewrite app_nil_r.
  - now rewrite IH, <- app_assoc.
Qed.

Lemma main_bin_eq ts : main_bin ts = ts.
Proof. unfold main_bin. now rewrite fold_write_byte. Qed.

Section Split.
Variable sep : ascii.

Lemma split_last f : no_sep sep f = true -> split sep f = [f].
Proof.
  induction f as [|c f IH]; cbn [no_sep split]; [reflexivity|].
  intros H. apply andb_true_iff in H. destruct H as [Hc Hf].
  apply negb_true_iff in Hc. rewrite Hc, (IH Hf). reflexivity.
Qed.

Lemma split_field f s :
  no_sep sep f = true ->
  split sep (append f (String sep s)) = f :: split sep s.
Proof.
  induction f as [|c f IH]; cbn [no_sep split append].
  - intros _. now rewrite Ascii.eqb_refl.
  - intros H. apply andb_true_iff in H. destruct H as [Hc Hf].
    apply negb_true_iff in Hc. rewrite Hc, (IH Hf). reflexivity.
Qed.
End Split.

Lemma split_fields f rest :
  no_sep "."%char f = true -> Forall is_byte rest ->
  split "."%char (append f (cat (map (entry encd) rest))) =
  f :: map (fun t => drop1 (entry encd t)) rest.
Proof.
  intros Hf Hrest. revert f Hf.
  induction Hrest as [|t rest Ht Hrest IH]; intros f Hf; cbn [map cat].
  - rewrite append_nil_r. now apply split_last.
  - destruct (entry_encd t Ht) as (digits & E & Hn & _).
    rewrite E. cbn [append drop1]. rewrite split_field by trivial.
    now rewrite IH.
Qed.

Lemma parse_entries ts :
  Forall is_byte ts ->
  map parse_dec (map (fun t => drop1 (entry encd t)) ts) = map Some ts.
Proof.
  induction 1 as [|t ts Ht Hts IH]; [reflexivity|].
  cbn [map]. rewrite IH. f_equal.
  destruct (entry_encd t Ht) as (digits & E & _ & Hp). now rewrite E.
Qed.

Lemma text_roundtrip_gen ts :
  ts <> [] -> Forall is_byte ts ->
  map parse_dec (split "."%char (main_text false ts)) = map Some (main_bin ts).
Proof.
  intros Hne Hts. destruct ts as [|t rest]; [contradiction|].
  inversion Hts as [|? ? Ht Hrest]; subst.
  unfold main_text. cbn [hd tl]. rewrite fold_append, main_bin_eq.
  destruct (entry_encd t Ht) as (digits & E & Hn & Hp).
  rewrite split_fields by (trivial; now rewrite E).
  change (map parse_dec (map (fun t0 => drop1 (entry encd t0)) (t :: rest))
          = map Some (t :: rest)).
  now apply parse_entries.
Qed.

End SinkFacts.

(** ** The run of the loop, iteration by iteration *)

Lemma sent_upto_S n : sent_upto (S n) = sent_upto n ++ sent (word_at n).
Proof.
  unfold sent_upto. rewrite seq_S, flat_map_app. cbn [flat_map Nat.add].
  now rewrite app_nil_r.
Qed.

Lemma rest_from_run n :
  running n -> rest_from zero_word = sent_upto n ++ rest_from (word_at n).
Proof.
  induction n as [|n IH]; intros Hn; [reflexivity|].
  rewrite IH by (intros m Hm; apply Hn; lia).
  rewrite sent_upto_S, <- app_assoc, word_at_S. f_equal.
  apply rest_from_step.
  - apply reachable_inrange, word_at_reachable. intros m Hm. apply Hn. lia.
  - apply Hn. lia.
Qed.

Lemma reachable_last u : reachable u -> u0 u = 255 -> u = Word 255 255 255 255.
Proof.
  intros Hu H0. pose proof (reachable_inrange u Hu) as Hr.
  pose proof (reachable_shape u Hu) as Hs.
  destruct u as [a b c d]. word_facts. shape_facts. f_equal; lia.
Qed.

Lemma terminates_from u : inrange u -> exists n, u0 (Nat.iter n next u) = 255.
Proof.
  revert u. apply loop_ind.
  - intros u _ H0. now exists 0%nat.
  - intros u _ _ [n Hn]. exists (S n). now rewrite Nat.iter_succ_r.
Qed.

Lemma next_u0 u :
  inrange u -> u0 u <> 255 -> u0 (next u) <> u0 u ->
  branch_of u = B1 /\ u0 (next u) = u0 u + 1.
Proof.
  intros Hr H0. pose proof (body_cases u Hr H0) as Hb. unfold next.
  destruct (branch_of u); decompose [and] Hb; clear Hb;
    match goal with E : body u = _ |- _ => rewrite E end;
    cbn [fst u0]; intros Hne; try contradiction. auto.
Qed.

Lemma lex_next u : inrange u -> u0 u <> 255 -> lex_lt u (next u).
Proof.
  intros Hr H0. pose proof (body_cases u Hr H0) as Hb.
  unfold next, lex_lt. word_facts.
  destruct (branch_of u); decompose [and] Hb; clear Hb;
    match goal with E : body u = _ |- _ => rewrite E end;
    cbn [fst u0 u1 u2 u3]; lia.
Qed.

Lemma val_word_at i j :
  (i < j)%nat -> running j -> val (word_at i) < val (word_at j).
Proof.
  induction j as [|j IH]; [lia|]. intros Hij Hj.
  assert (Hrun : running j) by (intros m Hm; apply Hj; lia).
  assert (Hstep : val (word_at j) < val (word_at (S j))).
  { rewrite word_at_S. apply val_next; [|apply Hj; lia].
    now apply reachable_inrange, word_at_reachable. }
  destruct (Nat.eq_dec i j) as [->|Hne]; [exact Hstep|].
  specialize (IH ltac:(lia) Hrun). lia.
Qed.

Lemma body_checked_body u :
  inrange u -> u0 u <> 255 -> body_checked u = Some (body u).
Proof.
  intros Hr H0. word_facts.
  unfold body_checked, saturated_checked, four_checked, incr_checked,
    body, saturated, four.
  eqb_cases; cbn -[incr Z.add]; eqb_cases; try lia;
    now rewrite ?incr_small by lia.
Qed.

Lemma cycle_terms : terms = cycle ++ [0; 0; 0].
Proof. rewrite terms_eq. reflexivity. Qed.

Lemma terms_prefix :
  terms = 0 :: 0 :: 0 :: 0 :: 1 :: rest_from (Word 0 0 0 1).
Proof.
  rewrite terms_eq. unfold zero_word.
  now rewrite (rest_four 0 0 0 0) by lia.
Qed.

Lemma cycle_prefix : firstn 3 cycle = [0; 0; 0].
Proof.
  pose proof terms_prefix as E. rewrite cycle_terms in E.
  destruct cycle as [|x0 [|x1 [|x2 l]]]; try discriminate.
  cbn [app] in E. injection E as -> -> ->. reflexivity.
Qed.

Lemma length_cycle : Z.of_nat (length cycle) = 4294967296.
Proof.
  pose proof length_terms as E. rewrite cycle_terms, length_app in E.
  cbn [length] in E. lia.
Qed.

Lemma shape_exclusive u :
  shape u ->
  (single u /\ ~ two_cycle u /\ ~ lyndon4 u) \/
  (two_cycle u /\ ~ single u /\ ~ lyndon4 u) \/
  (lyndon4 u /\ ~ single u /\ ~ two_cycle u).
Proof. shape_facts. lia. Qed.


(** * The properties of the program *)

(** C1.  The stream is the cyclic sequence of 2^32 terms followed by its
    first three terms, so the windows at the 2^32 consecutive positions of
    the stream are the windows of the cyclic sequence.  They are pairwise
    distinct 4-tuples of bytes, every 4-tuple of bytes is one of them, and
    so they are a rearrangement of the full product [0,255]^4, each tuple
    once. *)
Theorem windows_de_bruijn :
  terms = cycle ++ firstn 3 cycle /\
  Z.of_nat (length cycle) = 4294967296 /\
  Z.of_nat (length (windows4 terms)) = 4294967296 /\
  NoDup (windows4 terms) /\
  (forall t, In t (windows4 terms) <-> inrange t) /\
  Permutation (windows4 terms) all_words.
Proof.
  split; [rewrite cycle_prefix; apply cycle_terms|].
  split; [apply length_cycle|].
  split; [apply length_windows|].
  split; [apply NoDup_windows|].
  split; [apply windows_iff|].
  apply NoDup_Permutation.
  - apply NoDup_windows.
  - apply NoDup_all_words.
  - intros t. now rewrite windows_iff, in_all_words.
Qed.

(** C2, as stated: the total number of terms, the three closing ones
    included, is not 2^32. *)
Lemma terms_length_not_2_32 : Z.of_nat (length terms) <> 4294967296.
Proof. rewrite length_terms. discriminate. Qed.

(** C2, amended.  The first term and the terms of the loop are 2^32 terms
    (1 and 2^32 - 1); the three closing terms come after them, so the
    generator sends 2^32 + 3 terms before the channel is closed. *)
Theorem terms_count :
  terms = [0] ++ loop_from zero_word ++ [0; 0; 0] /\
  Z.of_nat (length (loop_from zero_word)) = 4294967296 - 1 /\
  Z.of_nat (length ([0] ++ loop_from zero_word)) = 4294967296 /\
  Z.of_nat (length terms) = 4294967296 + 3.
Proof.
  pose proof length_cycle as E. unfold cycle in E. cbn [length] in E.
  split; [apply terms_eq|].
  split; [lia|].
  split; [cbn [app length]; lia | apply length_terms].
Qed.

(** C3.  In binary mode the output is the list of terms itself, one byte
    for each term and nothing else, and it is 2^32 + 3 bytes long. *)
Theorem binary_output_size :
  (forall ts, Sink.main_bin ts = ts) /\
  (forall n, Sink.main true n = Sink.Bytes terms) /\
  Z.of_nat (length (Sink.main_bin terms)) = 4294967296 + 3 /\
  Z.of_nat (length terms) = 4294967296 + 3.
Proof.
  split; [apply SinkFacts.main_bin_eq|].
  split; [intros n; unfold Sink.main; now rewrite SinkFacts.main_bin_eq|].
  rewrite SinkFacts.main_bin_eq. split; apply length_terms.
Qed.

(** C4.  The four-case rule classifies a word [(a, b, c, d)] as a Lyndon
    word exactly when the word is strictly below each of its three
    nontrivial rotations in lexicographic order; this holds for all integer
    symbols, the bytes among them. *)
Theorem lyndon_rule_correct a b c d :
  lyndon_rule a b c d = true <-> lyndon_rot (Word a b c d).
Proof.
  rewrite lyndon_rule_iff.
  unfold lyndon_rot, lex_lt, rot. cbn [u0 u1 u2 u3].
  split.
  - intros (Hb & Hc & Hd & Hbd). repeat split; lia.
  - intros (H1 & H2 & H3). lia.
Qed.

(** C5.  At the top of every iteration, and when the loop exits, the
    working word is of exactly one of the three shapes: one repeated
    symbol, a 2-cycle [(a, b, a, b)] with [a < b], or a 4-symbol Lyndon
    word of the rule; it holds four bytes. *)
Theorem working_word_shape u :
  reachable u ->
  inrange u /\
  ((single u /\ ~ two_cycle u /\ ~ lyndon4 u) \/
   (two_cycle u /\ ~ single u /\ ~ lyndon4 u) \/
   (lyndon4 u /\ ~ single u /\ ~ two_cycle u)).
Proof.
  intros Hu. split; [now apply reachable_inrange|].
  now apply shape_exclusive, reachable_shape.
Qed.

Lemma working_word_shape_witness :
  inrange zero_word /\
  ((single zero_word /\ ~ two_cycle zero_word /\ ~ lyndon4 zero_word) \/
   (two_cycle zero_word /\ ~ single zero_word /\ ~ lyndon4 zero_word) \/
   (lyndon4 zero_word /\ ~ single zero_word /\ ~ two_cycle zero_word)).
Proof. apply (working_word_shape zero_word). exact reach_init. Defined.

(** C6.  The loop terminates from every word of bytes.  The run from the
    zero word reaches a word with [u[0] = 255]; whenever it does, the word
    is [(255, 255, 255, 255)], the iteration before took the 1-element
    branch, and the stream is the first term, the terms of the iterations
    and three closing zeros.  The 1-element branch is the only one that
    changes [u[0]]. *)
Theorem loop_terminates :
  (forall u, inrange u -> exists n, u0 (Nat.iter n next u) = 255) /\
  (exists n, running n /\ u0 (word_at n) = 255) /\
  (forall n, running n -> u0 (word_at n) = 255 ->
     word_at n = Word 255 255 255 255 /\
     (0 < n)%nat /\ branch_of (word_at (n - 1)) = B1 /\
     terms = [0] ++ sent_upto n ++ [0; 0; 0]) /\
  (forall u, inrange u -> u0 u <> 255 -> u0 (next u) <> u0 u ->
     branch_of u = B1 /\ u0 (next u) = u0 u + 1) /\
  (exists l, terms = l ++ [0; 0; 0]).
Proof.
  split; [exact terminates_from|].
  split.
  { assert (Hr : reachable (Word 255 255 255 255)).
    { apply shape_reachable; [reflexivity|]. left. repeat split. }
    destruct (reachable_word_at _ Hr) as (n & Hn & En).
    exists n. split; trivial. now rewrite En. }
  split.
  { intros n Hn H0.
    pose proof (reachable_last _ (word_at_reachable n Hn) H0) as En.
    assert (Hpos : (0 < n)%nat).
    { destruct n; [discriminate En | lia]. }
    split; [exact En|]. split; [exact Hpos|]. split.
    - destruct n as [|n]; [lia|].
      replace (S n - 1)%nat with n by lia.
      apply next_u0.
      + apply reachable_inrange, word_at_reachable.
        intros m Hm. apply Hn. lia.
      + apply Hn. lia.
      + rewrite <- word_at_S, H0. intros E. symmetry in E. revert E.
        apply Hn. lia.
    - rewrite terms_eq, (rest_from_run n Hn), En, rest_last.
      reflexivity. }
  split; [exact next_u0|].
  exists cycle. apply cycle_terms.
Qed.

Lemma loop_terminates_witness :
  (exists n, u0 (Nat.iter n next (Word 254 255 255 255)) = 255) /\
  (branch_of (Word 254 255 255 255) = B1 /\
   u0 (next (Word 254 255 255 255)) = 254 + 1).
Proof.
  destruct loop_terminates as (Hterm & _ & _ & Hone & _). split.
  - apply Hterm. reflexivity.
  - apply Hone; [reflexivity | cbn; lia | cbn; lia].
Defined.

(** C7.  The first four terms are 0, 0, 0, 0: the initial term, sent
    before the loop, followed by the first three symbols that the loop
    produces.  The first iteration sends 0, 0, 0, 1, and these are the
    first terms of the loop, so the stream begins 0, 0, 0, 0, 1. *)
Theorem first_four_terms :
  firstn 4 terms = [0; 0; 0; 0] /\
  terms = [0] ++ loop_from zero_word ++ [0; 0; 0] /\
  sent zero_word = [0; 0; 0; 1] /\
  loop_from zero_word = sent zero_word ++ loop_from (next zero_word) /\
  firstn 3 (loop_from zero_word) = [0; 0; 0] /\
  firstn 5 terms = [0; 0; 0; 0; 1].
Proof.
  assert (Hstep : loop_from zero_word
                  = sent zero_word ++ loop_from (next zero_word)).
  { apply loop_from_step; [exact zero_word_inrange | cbn; lia]. }
  assert (Hsent : sent zero_word = [0; 0; 0; 1]) by reflexivity.
  split; [rewrite terms_prefix; reflexivity|].
  split; [apply terms_eq|].
  split; [exact Hsent|].
  split; [exact Hstep|].
  split.
  - rewrite Hstep, Hsent. reflexivity.
  - rewrite terms_eq. unfold rest_from. rewrite Hstep, Hsent. reflexivity.
Qed.

(** C8.  The text output with the dot separator, split at the dots and
    each field read as a decimal integer, gives the bytes of the binary
    output, in the same order. *)
Theorem text_roundtrip :
  map Sink.parse_dec (Sink.split Sink.dot (Sink.main_text false terms)) =
  map Some (Sink.main_bin terms).
Proof.
  apply SinkFacts.text_roundtrip_gen; [|apply terms_bytes].
  rewrite terms_eq. discriminate.
Qed.

(** C9.  In an iteration of the loop, from a word of bytes with
    [u[0] <> 255], no increment wraps: the body with every increment
    checked for overflow succeeds and agrees with the body of the program,
    and the new word holds four bytes. *)
Theorem increments_never_wrap u :
  inrange u -> u0 u <> 255 ->
  body_checked u = Some (body u) /\ inrange (next u).
Proof.
  intros Hr H0. split; [now apply body_checked_body | now apply next_inrange].
Qed.

Lemma increments_never_wrap_witness :
  body_checked (Word 7 200 254 255) = Some (body (Word 7 200 254 255)) /\
  inrange (next (Word 7 200 254 255)).
Proof.
  apply (increments_never_wrap (Word 7 200 254 255)).
  - reflexivity.
  - cbn. lia.
Defined.

(** C10.  Every iteration makes the working word strictly greater, in
    lexicographic order and as a big-endian integer, whichever branch it
    takes; so the words at two different iterations of the run differ. *)
Theorem iteration_increases :
  (forall u, inrange u -> u0 u <> 255 ->
     lex_lt u (next u) /\ val u < val (next u)) /\
  (forall i j, (i < j)%nat -> running j ->
     val (word_at i) < val (word_at j) /\ word_at i <> word_at j).
Proof.
  split.
  - intros u Hr H0. split; [now apply lex_next | now apply val_next].
  - intros i j Hij Hj. pose proof (val_word_at i j Hij Hj) as Hlt.
    split; [exact Hlt|]. intros E. rewrite E in Hlt. lia.
Qed.

Lemma iteration_increases_witness :
  (lex_lt (Word 3 254 255 255) (next (Word 3 254 255 255)) /\
   val (Word 3 254 255 255) < val (next (Word 3 254 255 255))) /\
  (val (word_at 0) < val (word_at 2) /\ word_at 0 <> word_at 2).
Proof.
  destruct iteration_increases as [Hstep Hrun]. split.
  - apply Hstep; [reflexivity | cbn; lia].
  - apply Hrun; [lia|].
    intros m Hm. destruct m as [|[|m]]; [cbn; lia | cbn; lia | lia].
Defined.


(** * Further properties of the program *)

(** ** Lyndon words as lists *)

(** Lexicographic order on lists of symbols; a proper prefix is smaller. *)
Fixpoint list_lt (l m : list Z) : Prop :=
  match l, m with
  | _, [] => False
  | [], _ :: _ => True
  | x :: l', y :: m' => x < y \/ (x = y /\ list_lt l' m')
  end.

(** The rotation of [l] that starts at position [k]. *)
Definition rotate (k : nat) (l : list Z) : list Z := skipn k l ++ firstn k l.

(** "A string is a Lyndon word if it is lexicographically the unique minimum
    of its rotations" (the comment of [terms]). *)
Definition lyndon (l : list Z) : Prop :=
  l <> [] /\ forall k, (0 < k < length l)%nat -> list_lt l (rotate k l).

Lemma lex_val u v :
  inrange u -> inrange v -> (lex_lt u v <-> val u < val v).
Proof.
  intros Hu Hv. word_facts. unfold lex_lt, val.
  destruct u as [a b c d], v as [a' b' c' d']. cbn [u0 u1 u2 u3] in *.
  split.
  - intros [H|[-> [H|[-> [H|[-> H]]]]]]; lia.
  - intros H.
    destruct (Z.lt_trichotomy a a') as [?|[->|?]]; [now left| |lia]. right.
    split; trivial.
    destruct (Z.lt_trichotomy b b') as [?|[->|?]]; [now left| |lia]. right.
    split; trivial.
    destruct (Z.lt_trichotomy c c') as [?|[->|?]]; [now left| |lia]. right.
    split; [trivial | lia].
Qed.

Lemma lyndon_one a : lyndon [a].
Proof. split; [discriminate|]. cbn [length]. intros k Hk. lia. Qed.

Lemma lyndon_two a b : lyndon [a; b] <-> a < b.
Proof.
  split.
  - intros [_ H]. specialize (H 1%nat ltac:(cbn; lia)). cbn in H. lia.
  - intros Hab. split; [discriminate|]. intros k Hk. cbn [length] in Hk.
    assert (k = 1%nat) as -> by lia. cbn. lia.
Qed.

Lemma lyndon_four a b c d :
  lyndon [a; b; c; d] <-> lyndon_rule a b c d = true.
Proof.
  rewrite lyndon_rule_iff. split.
  - intros [_ H].
    pose proof (H 1%nat ltac:(cbn; lia)) as H1.
    pose proof (H 2%nat ltac:(cbn; lia)) as H2.
    pose proof (H 3%nat ltac:(cbn; lia)) as H3.
    cbn in H1, H2, H3. lia.
  - intros Hl. split; [discriminate|]. intros k Hk. cbn [length] in Hk.
    destruct k as [|[|[|[|k]]]]; try lia; cbn; lia.
Qed.

Lemma sent_length u :
  inrange u -> u0 u <> 255 ->
  (length (sent u) = 1 \/ length (sent u) = 2 \/ length (sent u) = 4)%nat.
Proof.
  intros Hr H0. pose proof (body_cases u Hr H0) as Hb. unfold sent.
  destruct (branch_of u); decompose [and] Hb; clear Hb;
    match goal with E : body u = _ |- _ => rewrite E end; cbn; auto.
Qed.

Lemma word_of_lyndon u : shape u -> lyndon (word_of u).
Proof.
  destruct u as [a b c d]. intros [Hs|[Hs|Hs]].
  - unfold single in Hs. cbn [u0 u1 u2 u3] in Hs.
    destruct Hs as (-> & -> & ->). rewrite word_of_single. apply lyndon_one.
  - unfold two_cycle in Hs. cbn [u0 u1 u2 u3] in Hs.
    destruct Hs as (<- & <- & Hab). rewrite word_of_two by lia.
    now apply lyndon_two.
  - rewrite word_of_four by trivial. now apply lyndon_four.
Qed.


(** X1.  The words at the top of the iterations are exactly the words of
    bytes of the three shapes: the loop reaches every one of them and no
    other word. *)
Theorem reachable_iff u : reachable u <-> inrange u /\ shape u.
Proof.
  split.
  - intros Hu. split; [now apply reachable_inrange | now apply reachable_shape].
  - intros [Hr Hs]. now apply shape_reachable.
Qed.

(** X2.  An iteration moves to the lexicographically next word of the
    three shapes: the new word is of the three shapes and greater, and no
    word of bytes of the three shapes lies strictly between the old and
    the new one. *)
Theorem next_is_successor u :
  inrange u -> shape u -> u0 u <> 255 ->
  inrange (next u) /\ shape (next u) /\ lex_lt u (next u) /\
  forall v, inrange v -> shape v -> ~ (lex_lt u v /\ lex_lt v (next u)).
Proof.
  intros Hr Hs H0.
  pose proof (next_inrange u Hr H0) as Hnr.
  split; [exact Hnr|]. split; [now apply shape_next|].
  split; [now apply lex_next|].
  intros v Hvr Hvs [Huv Hvn].
  apply lex_val in Huv; trivial. apply lex_val in Hvn; trivial.
  destruct (reachable_word_at u (shape_reachable u Hr Hs)) as (i & Hi & Ei).
  destruct (reachable_word_at v (shape_reachable v Hvr Hvs)) as (j & Hj & Ej).
  assert (Hsi : running (S i)).
  { intros m Hm. destruct (Nat.eq_dec m i) as [->|Hne].
    - now rewrite Ei.
    - apply Hi. lia. }
  assert (En : word_at (S i) = next u) by now rewrite word_at_S, Ei.
  destruct (Nat.lt_trichotomy j (S i)) as [Hlt|[->|Hgt]].
  - destruct (Nat.eq_dec j i) as [->|Hne].
    + rewrite Ei in Ej. subst v. lia.
    + pose proof (val_word_at j i ltac:(lia) Hi) as H. rewrite Ei, Ej in H. lia.
  - rewrite En in Ej. subst v. lia.
  - pose proof (val_word_at (S i) j Hgt Hj) as H. rewrite En, Ej in H. lia.
Qed.

Lemma next_is_successor_witness :
  inrange (next (Word 0 0 255 255)) /\ shape (next (Word 0 0 255 255)) /\
  lex_lt (Word 0 0 255 255) (next (Word 0 0 255 255)) /\
  forall v, inrange v -> shape v ->
            ~ (lex_lt (Word 0 0 255 255) v /\ lex_lt v (next (Word 0 0 255 255))).
Proof.
  apply (next_is_successor (Word 0 0 255 255)).
  - reflexivity.
  - right; right. reflexivity.
  - cbn. lia.
Defined.

(** X3.  The terms an iteration sends are the word of the new working
    word; they form a Lyndon word, of length 1, 2 or 4 and never 3. *)
Theorem sent_is_lyndon u :
  reachable u -> u0 u <> 255 ->
  sent u = word_of (next u) /\ lyndon (sent u) /\
  (length (sent u) = 1 \/ length (sent u) = 2 \/ length (sent u) = 4)%nat.
Proof.
  intros Hu H0. pose proof (reachable_inrange u Hu) as Hr.
  pose proof (reachable_shape u Hu) as Hs.
  pose proof (sent_word_of u Hr H0 Hs) as E.
  split; [exact E|]. split.
  - rewrite E. apply word_of_lyndon. now apply shape_next.
  - now apply sent_length.
Qed.

Lemma sent_is_lyndon_witness :
  sent zero_word = word_of (next zero_word) /\ lyndon (sent zero_word) /\
  (length (sent zero_word) = 1 \/ length (sent zero_word) = 2 \/
   length (sent zero_word) = 4)%nat.
Proof.
  apply (sent_is_lyndon zero_word).
  - exact reach_init.
  - cbn. lia.
Defined.

(** X4.  The statements of the comment of [terms] about short words, for
    the rotation definition on lists: a single symbol is a Lyndon word, a
    pair is one iff its first symbol is less than its second, and a word of
    four symbols is one iff the rule accepts it. *)
Theorem lyndon_short a b c d :
  lyndon [a] /\ (lyndon [a; b] <-> a < b) /\
  (lyndon [a; b; c; d] <-> lyndon_rule a b c d = true).
Proof.
  split; [apply lyndon_one|]. split; [apply lyndon_two | apply lyndon_four].
Qed.



(** ** How often each byte occurs *)

Fixpoint zsum (l : list Z) : Z :=
  match l with
  | [] => 0
  | x :: r => x + zsum r
  end.

(** The words with a given first slot. *)
Definition words_from (a : Z) : list word :=
  flat_map (fun b =>
    flat_map (fun c => map (fun d => Word a b c d) bytes) bytes) bytes.

Lemma zsum_app l m : zsum (l ++ m) = zsum l + zsum m.
Proof. induction l as [|x l IH]; cbn [app zsum]; lia. Qed.

Lemma zsum_perm {A} (f : A -> Z) l m :
  Permutation l m -> zsum (map f l) = zsum (map f m).
Proof. induction 1; cbn [map zsum]; lia. Qed.

Lemma zsum_flat_map {A B} (g : B -> Z) (F : A -> list B) l :
  zsum (map g (flat_map F l)) = zsum (map (fun a => zsum (map g (F a))) l).
Proof.
  induction l as [|a l IH]; [reflexivity|].
  cbn [flat_map map zsum]. rewrite map_app, zsum_app, IH. reflexivity.
Qed.

Lemma zsum_const {A} (g : A -> Z) k l :
  (forall x, In x l -> g x = k) -> zsum (map g l) = k * Z.of_nat (length l).
Proof.
  induction l as [|x l IH]; intros H; [cbn; lia|].
  cbn [map zsum length].
  rewrite IH by (intros y Hy; apply H; now right).
  rewrite (H x) by now left. lia.
Qed.

Lemma zsum_scale {A} (f : A -> Z) k l :
  zsum (map (fun x => f x * k) l) = k * zsum (map f l).
Proof. induction l as [|x l IH]; cbn [map zsum]; lia. Qed.

Lemma windows4_head a t :
  (3 <= length t)%nat ->
  map u0 (windows4 (a :: t)) = a :: map u0 (windows4 t).
Proof.
  destruct t as [|b [|c [|d t]]]; cbn [length]; try lia. reflexivity.
Qed.

Lemma windows4_firsts l x y z : map u0 (windows4 (l ++ [x; y; z])) = l.
Proof.
  induction l as [|a l IH]; [reflexivity|].
  cbn [app]. rewrite windows4_head, IH; trivial.
  rewrite length_app. cbn [length]. lia.
Qed.

Lemma cycle_firsts : map u0 (windows4 terms) = cycle.
Proof. rewrite cycle_terms. apply windows4_firsts. Qed.

Lemma windows_perm : Permutation (windows4 terms) all_words.
Proof.
  apply NoDup_Permutation.
  - apply NoDup_windows.
  - apply NoDup_all_words.
  - intros t. now rewrite windows_iff, in_all_words.
Qed.

Lemma length_words_from a : Z.of_nat (length (words_from a)) = 16777216.
Proof.
  unfold words_from.
  rewrite flat_map_constant_length
    with (c := (length bytes * length bytes)%nat).
  - rewrite !Nat2Z.inj_mul, length_bytes. reflexivity.
  - intros b _.
    rewrite flat_map_constant_length with (c := length bytes); [reflexivity|].
    intros c _. apply length_map.
Qed.

Lemma words_from_u0 a w : In w (words_from a) -> u0 w = a.
Proof.
  unfold words_from. intros H.
  apply in_flat_map in H. destruct H as (b & _ & H).
  apply in_flat_map in H. destruct H as (c & _ & H).
  apply in_map_iff in H. destruct H as (d & <- & _). reflexivity.
Qed.

(** Summing a function of the term over the cycle. *)
Lemma zsum_cycle (f : Z -> Z) :
  zsum (map f cycle) = 16777216 * zsum (map f bytes).
Proof.
  rewrite <- cycle_firsts, map_map.
  rewrite (zsum_perm (fun w => f (u0 w)) _ _ windows_perm).
  change all_words with (flat_map words_from bytes).
  rewrite zsum_flat_map, <- zsum_scale. f_equal.
  apply map_ext. intros a.
  rewrite (zsum_const _ (f a)), length_words_from; [reflexivity|].
  intros w Hw. now rewrite (words_from_u0 a w Hw).
Qed.

Lemma count_occ_zsum (l : list Z) v :
  Z.of_nat (count_occ Z.eq_dec l v) =
  zsum (map (fun x => if Z.eq_dec x v then 1 else 0) l).
Proof.
  induction l as [|x l IH]; [reflexivity|].
  cbn [count_occ map zsum]. destruct (Z.eq_dec x v); lia.
Qed.

(** X6.  Each byte value occurs exactly 2^24 times among the 2^32 terms of
    the cycle; with the three closing zeros the whole stream holds 0 three
    times more. *)
Theorem bytes_balanced v :
  is_byte v ->
  Z.of_nat (count_occ Z.eq_dec cycle v) = 16777216 /\
  Z.of_nat (count_occ Z.eq_dec terms v) =
  16777216 + (if Z.eq_dec v 0 then 3 else 0).
Proof.
  intros Hv.
  assert (Hc : Z.of_nat (count_occ Z.eq_dec cycle v) = 16777216).
  { rewrite count_occ_zsum, zsum_cycle, <- count_occ_zsum.
    assert (E : count_occ Z.eq_dec bytes v = 1%nat).
    { apply NoDup_count_occ'; [apply NoDup_bytes | now apply in_bytes]. }
    rewrite E. reflexivity. }
  split; [exact Hc|].
  rewrite cycle_terms, count_occ_app, Nat2Z.inj_add, Hc. f_equal.
  cbn [count_occ]. destruct (Z.eq_dec 0 v), (Z.eq_dec v 0); try lia;
    reflexivity.
Qed.

Lemma bytes_balanced_witness :
  Z.of_nat (count_occ Z.eq_dec cycle 255) = 16777216 /\
  Z.of_nat (count_occ Z.eq_dec terms 255) =
  16777216 + (if Z.eq_dec 255 0 then 3 else 0).
Proof. apply (bytes_balanced 255). unfold is_byte. lia. Defined.

(** ** The text output against direct decimal formatting *)

Module Text.
Import Ascii String Sink.
Local Open Scope string_scope.
Local Open Scope list_scope.
Local Open Scope Z_scope.

Definition newline : ascii := "010"%char.

(** The separator that the flag [-n] selects. *)
Definition sep_of (n : bool) : ascii := if n then newline else dot.

(** The decimal digits of an integer, as the standard library prints them. *)
Definition decimal (t : Z) : string :=
  DecimalString.NilZero.string_of_int (Z.to_int t).

(** The terms in decimal, with [sep] between two terms. *)
Definition render (sep : ascii) (ts : list Z) : string :=
  match ts with
  | [] => EmptyString
  | t :: rest => append (decimal t) (cat (map (fun x => String sep (decimal x)) rest))
  end.

(** An IPv4 address in dotted-decimal form. *)
Definition dotted (w : word) : string :=
  render dot [u0 w; u1 w; u2 w; u3 w].

(** [p] occurs in [s] as a run of whole fields: what is before it is empty
    or ends with [sep], what is after it is empty or starts with [sep]. *)
Definition occurs_in (sep : ascii) (p s : string) : Prop :=
  exists pre post,
    s = append pre (append p post) /\
    (pre = EmptyString \/ exists q, pre = append q (String sep EmptyString)) /\
    (post = EmptyString \/ exists q, post = String sep q).

Definition strlen (s : string) : Z := Z.of_nat (String.length s).

(** An entry of both tables is the separator and the decimal digits of its
    index; the digits hold no separator and parse back to the index. *)
Definition tables_ok (t : nat) : bool :=
  let z := Z.of_nat t in
  String.eqb (nth t encd EmptyString) (String dot (decimal z)) &&
  String.eqb (nth t encn EmptyString) (String newline (decimal z)) &&
  no_sep dot (decimal z) && no_sep newline (decimal z) &&
  match parse_dec (decimal z) with
  | Some v => v =? z
  | None => false
  end.

End Text.

Module TextFacts.
Import Ascii String Sink SinkFacts Text.
Local Open Scope string_scope.
Local Open Scope list_scope.
Local Open Scope Z_scope.

Lemma tables_check : forallb tables_ok (seq 0 256) = true.
Proof. vm_compute. reflexivity. Qed.

Lemma tables_decimal t :
  is_byte t ->
  entry encd t = String dot (decimal t) /\
  entry encn t = String newline (decimal t) /\
  no_sep dot (decimal t) = true /\ no_sep newline (decimal t) = true /\
  parse_dec (decimal t) = Some t.
Proof.
  intros Ht. unfold is_byte in Ht.
  assert (Hin : In (Z.to_nat t) (seq 0 256)) by (apply in_seq; lia).
  pose proof (proj1 (forallb_forall _ _) tables_check _ Hin) as Hok.
  unfold tables_ok in Hok. rewrite Z2Nat.id in Hok by lia.
  rewrite !andb_true_iff in Hok.
  destruct Hok as ((((Hd & Hn) & Hsd) & Hsn) & Hp).
  apply String.eqb_eq in Hd, Hn. unfold entry.
  repeat split; trivial.
  destruct (parse_dec (decimal t)) as [v|]; [|discriminate].
  apply Z.eqb_eq in Hp. now subst v.
Qed.

Lemma entry_sep (n : bool) t :
  is_byte t ->
  entry (if n then encn else encd) t = String (sep_of n) (decimal t) /\
  no_sep (sep_of n) (decimal t) = true.
Proof.
  intros Ht. destruct (tables_decimal t Ht) as (Hd & Hn & Hsd & Hsn & _).
  destruct n; cbn [sep_of]; auto.
Qed.

Lemma cat_entries (n : bool) ts :
  Forall is_byte ts ->
  cat (map (entry (if n then encn else encd)) ts) =
  cat (map (fun x => String (sep_of n) (decimal x)) ts).
Proof.
  induction 1 as [|t ts Ht Hts IH]; [reflexivity|].
  cbn [map cat]. rewrite IH. f_equal. now apply entry_sep.
Qed.

Lemma main_text_render n ts :
  ts <> [] -> Forall is_byte ts -> main_text n ts = render (sep_of n) ts.
Proof.
  intros Hne Hts. destruct ts as [|t rest]; [contradiction|].
  inversion Hts as [|? ? Ht Hrest]; subst.
  unfold main_text, render. cbn [hd tl].
  rewrite fold_append, (cat_entries n rest Hrest).
  destruct (entry_sep n t Ht) as [E _]. now rewrite E.
Qed.




Lemma strlen_append s1 s2 : strlen (append s1 s2) = strlen s1 + strlen s2.
Proof.
  unfold strlen. induction s1 as [|c s1 IH]; cbn [append String.length].
  - lia.
  - rewrite !Nat2Z.inj_succ. lia.
Qed.

Lemma strlen_cat (f : Z -> string) l :
  strlen (cat (map f l)) = zsum (map (fun x => strlen (f x)) l).
Proof.
  induction l as [|x l IH]; [reflexivity|].
  cbn [map cat zsum]. now rewrite strlen_append, IH.
Qed.

Lemma strlen_render sep ts :
  ts <> [] ->
  strlen (render sep ts) = zsum (map (fun t => 1 + strlen (decimal t)) ts) - 1.
Proof.
  intros Hne. destruct ts as [|t rest]; [contradiction|].
  unfold render. rewrite strlen_append, strlen_cat. cbn [map zsum].
  assert (E : forall l,
    zsum (map (fun x => strlen (String sep (decimal x))) l) =
    zsum (map (fun t => 1 + strlen (decimal t)) l)).
  { intros l. f_equal. apply map_ext. intros x. unfold strlen.
    cbn [String.length]. rewrite Nat2Z.inj_succ. lia. }
  rewrite E. lia.
Qed.

Lemma digits_of_bytes : zsum (map (fun t => 1 + strlen (decimal t)) bytes) = 914.
Proof. vm_compute. reflexivity. Qed.

Lemma strlen_terms sep : strlen (render sep terms) = 15334375429.
Proof.
  rewrite strlen_render by (rewrite terms_eq; discriminate).
  rewrite cycle_terms, map_app, zsum_app, zsum_cycle, digits_of_bytes.
  vm_compute. reflexivity.
Qed.

End TextFacts.

Lemma windows4_split a b c d l :
  In (Word a b c d) (windows4 l) ->
  exists pre post, l = pre ++ [a; b; c; d] ++ post.
Proof.
  induction l as [|x l IH]; [intros []|].
  cbn [windows4]. intros H. apply in_app_or in H. destruct H as [H|H].
  - destruct l as [|y [|z [|t l]]]; try contradiction.
    destruct H as [E|[]]. injection E as -> -> -> ->.
    exists [], l. reflexivity.
  - destruct (IH H) as (pre & post & ->).
    exists (x :: pre), post. reflexivity.
Qed.

Module AddressFacts.
Import Ascii String Sink SinkFacts Text TextFacts.
Local Open Scope string_scope.
Local Open Scope list_scope.
Local Open Scope Z_scope.

Lemma cat_app l m : cat (l ++ m) = append (cat l) (cat m).
Proof.
  induction l as [|s l IH]; [reflexivity|].
  cbn [app cat]. now rewrite IH, append_assoc.
Qed.

Lemma render_app sep l m :
  l <> [] -> m <> [] ->
  render sep (l ++ m) = append (render sep l) (String sep (render sep m)).
Proof.
  intros Hl Hm. destruct l as [|t l]; [contradiction|].
  destruct m as [|x m]; [contradiction|].
  cbn [app render]. rewrite map_app, cat_app, append_assoc. reflexivity.
Qed.

Lemma render_occurs sep pre mid post :
  mid <> [] -> occurs_in sep (render sep mid) (render sep (pre ++ mid ++ post)).
Proof.
  intros Hmid.
  assert (Htail : exists q,
    render sep (mid ++ post) = append (render sep mid) q /\
    (q = EmptyString \/ exists r, q = String sep r)).
  { destruct post as [|y post].
    - rewrite app_nil_r. exists EmptyString.
      split; [now rewrite append_nil_r | now left].
    - rewrite render_app by (trivial; discriminate).
      eexists. split; [reflexivity|]. right. eexists. reflexivity. }
  destruct Htail as (q & Eq & Hq).
  destruct pre as [|p pre].
  - cbn [app]. exists EmptyString, q. split; [exact Eq|]. split; [now left|].
    exact Hq.
  - assert (Hne : mid ++ post <> []).
    { destruct mid; [contradiction | discriminate]. }
    rewrite render_app by (trivial; discriminate). rewrite Eq.
    exists (append (render sep (p :: pre)) (String sep EmptyString)), q.
    split; [now rewrite append_assoc|]. split; [|exact Hq].
    right. eexists. reflexivity.
Qed.

End AddressFacts.

(** X7.  Both tables have 256 entries, and the entry of a byte is the
    separator (a dot in [encd], a newline in [encn]) followed by the byte
    in decimal, as direct decimal formatting gives it. *)
Theorem tables_are_decimal :
  length Sink.encd = 256%nat /\ length Sink.encn = 256%nat /\
  forall t, is_byte t ->
    Sink.entry Sink.encd t = String.String Sink.dot (Text.decimal t) /\
    Sink.entry Sink.encn t = String.String Text.newline (Text.decimal t).
Proof.
  split; [reflexivity|]. split; [reflexivity|].
  intros t Ht. destruct (TextFacts.tables_decimal t Ht) as (Hd & Hn & _).
  now split.
Qed.

Lemma tables_are_decimal_witness :
  Sink.entry Sink.encd 192 = String.String Sink.dot (Text.decimal 192) /\
  Sink.entry Sink.encn 192 = String.String Text.newline (Text.decimal 192).
Proof.
  destruct tables_are_decimal as (_ & _ & H). apply H. unfold is_byte. lia.
Defined.

(** X8.  For a nonempty stream of bytes, the text output is the first term
    in decimal followed, for each later term, by the separator and the
    term in decimal: no separator before the first term or after the last
    one.  The separator is a newline with the flag [-n], a dot without. *)
Theorem text_layout (n : bool) ts :
  ts <> [] -> Forall is_byte ts ->
  Sink.main_text n ts = Text.render (Text.sep_of n) ts.
Proof.
  intros Hne Hts. destruct ts as [|t rest]; [contradiction|].
  inversion Hts as [|? ? Ht Hrest]; subst.
  unfold Sink.main_text, Text.render. cbn [hd tl].
  rewrite SinkFacts.fold_append, (TextFacts.cat_entries n rest Hrest).
  destruct (TextFacts.entry_sep n t Ht) as [E _]. now rewrite E.
Qed.

Lemma text_layout_witness :
  Sink.main_text true [10; 0; 255] = Text.render (Text.sep_of true) [10; 0; 255].
Proof.
  apply (text_layout true [10; 0; 255]).
  - discriminate.
  - repeat constructor; unfold is_byte; lia.
Defined.



(** X10.  The text output of the program is 15,334,375,429 characters long
    in both text modes (14.28 GiB, the "around 14.2 GiB" of the package
    comment). *)
Theorem text_output_size (n : bool) :
  Sink.main false n = Sink.Text (Sink.main_text n terms) /\
  Text.strlen (Sink.main_text n terms) = 15334375429.
Proof.
  split; [reflexivity|].
  rewrite TextFacts.main_text_render.
  - apply TextFacts.strlen_terms.
  - rewrite terms_eq. discriminate.
  - apply terms_bytes.
Qed.

(** X11.  Every IPv4 address, written in dotted-decimal form, occurs in
    the dot-separated text output as a run of four whole fields. *)
Theorem every_address_occurs w :
  inrange w ->
  Text.occurs_in Sink.dot (Text.dotted w) (Sink.main_text false terms).
Proof.
  intros Hw. destruct w as [a b c d].
  pose proof (occurs_all _ Hw) as Ho. unfold occurs in Ho.
  destruct (windows4_split a b c d terms Ho) as (pre & post & E).
  rewrite TextFacts.main_text_render.
  - rewrite E. unfold Text.dotted. cbn [u0 u1 u2 u3].
    apply AddressFacts.render_occurs. discriminate.
  - rewrite terms_eq. discriminate.
  - apply terms_bytes.
Qed.

Lemma every_address_occurs_witness :
  Text.occurs_in Sink.dot (Text.dotted (Word 192 168 0 1))
                 (Sink.main_text false terms).
Proof. apply (every_address_occurs (Word 192 168 0 1)). reflexivity. Defined.

(** ** The iterations of the run and the progress log *)

(** [log.Println("1-element", u[0])]: what an iteration writes to the log,
    the value of [u[0]] before the 1-element branch increments it. *)
Definition logged (u : word) : list Z :=
  if u3 u =? 255 then
    if u2 u =? 255 then
      if u1 u =? 255 then [u0 u] else []
    else []
  else [].

(** The log after the first [n] iterations. *)
Definition log_upto (n : nat) : list Z :=
  flat_map (fun i => logged (word_at i)) (seq 0 n).

(** [trace u n l v]: [n] iterations lead from [u] to [v] and log [l]. *)
Inductive trace : word -> nat -> list Z -> word -> Prop :=
| trace_nil u : trace u 0 [] u
| trace_step u n l v :
    inrange u -> u0 u <> 255 -> trace (next u) n l v ->
    trace u (S n) (logged u ++ l) v.

Lemma trace_app u n l v m l' w :
  trace u n l v -> trace v m l' w -> trace u (n + m) (l ++ l') w.
Proof.
  induction 1 as [u|u n l v Hr H0 Ht IH]; intros Hv; [exact Hv|].
  cbn [Nat.add]. rewrite <- app_assoc. constructor; auto.
Qed.

Lemma trace_cons u u' lg n l v :
  inrange u -> u0 u <> 255 -> next u = u' -> logged u = lg ->
  trace u' n l v -> trace u (S n) (lg ++ l) v.
Proof. intros Hr H0 <- <- Ht. now constructor. Qed.

Lemma log_upto_S n : log_upto (S n) = log_upto n ++ logged (word_at n).
Proof.
  unfold log_upto. rewrite seq_S, flat_map_app. cbn [flat_map Nat.add].
  now rewrite app_nil_r.
Qed.

Lemma trace_word_at u n l v :
  trace u n l v ->
  forall k, running k -> word_at k = u ->
    running (k + n) /\ word_at (k + n) = v /\
    log_upto (k + n) = log_upto k ++ l.
Proof.
  induction 1 as [u|u n l v Hr H0 Ht IH]; intros k Hk Ek.
  - rewrite Nat.add_0_r, app_nil_r. auto.
  - assert (Hk1 : running (S k)).
    { intros m Hm. destruct (Nat.eq_dec m k) as [->|Hne].
      - now rewrite Ek.
      - apply Hk. lia. }
    assert (Ek1 : word_at (S k) = next u) by now rewrite word_at_S, Ek.
    destruct (IH (S k) Hk1 Ek1) as (Hrun & Hw & Hl).
    replace (k + S n)%nat with (S k + n)%nat by lia.
    split; [exact Hrun|]. split; [exact Hw|].
    now rewrite Hl, log_upto_S, Ek, <- app_assoc.
Qed.

Section Traces.
Variable a : Z.
Hypothesis Ha : 0 <= a < 255.

Lemma trace_four b c d :
  0 <= b < 256 -> 0 <= c < 256 -> 0 <= d <= 255 ->
  exists n, Z.of_nat n = 255 - d /\
            trace (Word a b c d) n [] (Word a b c 255).
Proof.
  intros Hb Hc Hd. revert d Hd. apply down_ind.
  - exists 0%nat. split; [reflexivity | constructor].
  - intros d Hd (n & En & Ht). exists (S n). split; [lia|].
    apply trace_cons with (u' := Word a b c (d + 1)) (lg := []) (l := []);
      trivial.
    + apply inrange_Word; lia.
    + cbn; lia.
    + unfold next. now rewrite body_four by lia.
    + unfold logged. cbn [u0 u1 u2 u3].
      destruct (Z.eqb_spec d 255); [lia | reflexivity].
Qed.

Lemma trace_skip b c :
  0 <= b < 256 -> 0 <= c <= 255 ->
  exists n, Z.of_nat n = (255 - c) * (255 - a) /\
            trace (Word a b c 255) n [] (Word a b 255 255).
Proof.
  intros Hb. revert c. apply down_ind.
  - exists 0%nat. split; [reflexivity | constructor].
  - intros c Hc (n & En & Ht).
    destruct (trace_four b (c + 1) (a + 1)) as (m & Em & Hm); try lia.
    exists (S (m + n)). split; [lia|].
    apply trace_cons with (u' := Word a b (c + 1) (a + 1)) (lg := [])
                          (l := []).
    + apply inrange_Word; lia.
    + cbn; lia.
    + unfold next. now rewrite body_skip by lia.
    + unfold logged. cbn [u0 u1 u2 u3]. rewrite Z.eqb_refl.
      destruct (Z.eqb_spec c 255); [lia | reflexivity].
    + apply (trace_app _ _ _ _ _ _ _ Hm Ht).
Qed.

Lemma trace_two b :
  0 <= b <= 255 ->
  exists n,
    2 * Z.of_nat n =
    2 * (255 - b) * (1 + (255 - a) * (255 - a)) + (255 - b) * (254 - b) /\
    trace (Word a b 255 255) n [] (Word a 255 255 255).
Proof.
  revert b. apply down_ind.
  - exists 0%nat. split; [reflexivity | constructor].
  - intros b Hb (n & En & Ht).
    destruct (trace_four (b + 1) a (b + 1)) as (m & Em & Hm); try lia.
    destruct (trace_skip (b + 1) a) as (k & Ek & Hk); try lia.
    exists (S (m + (k + n))). split; [lia|].
    apply trace_cons with (u' := Word a (b + 1) a (b + 1)) (lg := [])
                          (l := []).
    + apply inrange_Word; lia.
    + cbn; lia.
    + unfold next. now rewrite body_two by lia.
    + unfold logged. cbn [u0 u1 u2 u3]. rewrite !Z.eqb_refl.
      destruct (Z.eqb_spec b 255); [lia | reflexivity].
    + apply (trace_app _ _ _ _ _ _ _ Hm).
      apply (trace_app _ _ _ _ _ _ _ Hk Ht).
Qed.
End Traces.

(** The bytes from [a] up to 254. *)
Definition from_to_254 (a : Z) : list Z :=
  map Z.of_nat (seq (Z.to_nat a) (Z.to_nat (255 - a))).

Lemma from_to_254_step a :
  0 <= a < 255 -> from_to_254 a = a :: from_to_254 (a + 1).
Proof.
  intros Ha. unfold from_to_254.
  replace (Z.to_nat (255 - a)) with (S (Z.to_nat (255 - (a + 1)))) by lia.
  cbn [seq map]. rewrite Z2Nat.id by lia.
  replace (Z.to_nat (a + 1)) with (S (Z.to_nat a)) by lia. reflexivity.
Qed.

Lemma trace_single a :
  0 <= a <= 255 ->
  exists n,
    4 * Z.of_nat n =
    (256 - a) * (256 - a) * (256 - a) * (256 - a)
    + (256 - a) * (256 - a) + 2 * (256 - a) - 4 /\
    trace (Word a a a a) n (from_to_254 a) (Word 255 255 255 255).
Proof.
  revert a. apply down_ind.
  - exists 0%nat. split; [reflexivity | constructor].
  - intros a Ha (n & En & Ht).
    destruct (trace_four a Ha a a a) as (m1 & E1 & H1); try lia.
    destruct (trace_skip a Ha a a) as (m2 & E2 & H2); try lia.
    destruct (trace_two a Ha a) as (m3 & E3 & H3); try lia.
    exists (m1 + (m2 + (m3 + (1 + n))))%nat. split.
    + rewrite !Nat2Z.inj_add. change (Z.of_nat 1) with 1.
      assert (Em : exists m, m = 255 - a) by now eexists.
      destruct Em as (m & Em).
      replace (256 - a) with (m + 1) by lia.
      replace (256 - (a + 1)) with m in En by lia.
      replace (254 - a) with (m - 1) in E3 by lia.
      rewrite <- Em in E1, E2, E3. rewrite E1, E2. lia.
    + rewrite from_to_254_step by lia.
      change (a :: from_to_254 (a + 1))
        with ([] ++ [] ++ [] ++ [a] ++ from_to_254 (a + 1)).
      apply (trace_app _ _ _ _ _ _ _ H1).
      apply (trace_app _ _ _ _ _ _ _ H2).
      apply (trace_app _ _ _ _ _ _ _ H3).
      apply trace_cons with (u' := Word (a + 1) (a + 1) (a + 1) (a + 1)).
      * apply inrange_Word; lia.
      * cbn; lia.
      * unfold next. now rewrite body_one by lia.
      * unfold logged. cbn [u0 u1 u2 u3]. now rewrite !Z.eqb_refl.
      * exact Ht.
Qed.

Lemma exit_unique n m :
  running n -> u0 (word_at n) = 255 ->
  running m -> u0 (word_at m) = 255 -> n = m.
Proof.
  intros Hn En Hm Em.
  destruct (Nat.lt_trichotomy n m) as [H|[H|H]]; trivial.
  - exfalso. now apply (Hm n H).
  - exfalso. now apply (Hn m H).
Qed.

Lemma run_trace :
  exists n, Z.of_nat n = 1073758335 /\ running n /\
            word_at n = Word 255 255 255 255 /\
            log_upto n = from_to_254 0.
Proof.
  destruct (trace_single 0 ltac:(lia)) as (n & En & Ht).
  destruct (trace_word_at _ _ _ _ Ht 0%nat) as (Hrun & Hw & Hl).
  { intros m Hm. lia. }
  { reflexivity. }
  cbn [Nat.add] in *. exists n.
  split; [lia|]. split; [exact Hrun|]. split; [exact Hw | exact Hl].
Qed.

(** X12.  The loop exits after exactly 1,073,758,335 iterations, one for
    each Lyndon word of length 1, 2 or 4 over the bytes but the first; it
    exits at no other iteration. *)
Theorem iteration_count :
  exists n, Z.of_nat n = 1073758335 /\ running n /\ u0 (word_at n) = 255 /\
            forall m, running m -> u0 (word_at m) = 255 -> m = n.
Proof.
  destruct run_trace as (n & En & Hn & Hw & _). exists n.
  assert (H0 : u0 (word_at n) = 255) by now rewrite Hw.
  split; [exact En|]. split; [exact Hn|]. split; [exact H0|].
  intros m Hm Em. now apply exit_unique.
Qed.

(** X13.  When the loop exits, the progress log holds the values
    0, 1, ..., 254 of [u[0]], each once and in increasing order: 255 lines,
    one for each time the most significant byte is about to change. *)
Theorem progress_log :
  exists n, running n /\ u0 (word_at n) = 255 /\
            log_upto n = map Z.of_nat (seq 0 255) /\
            length (log_upto n) = 255%nat.
Proof.
  destruct run_trace as (n & _ & Hn & Hw & Hl). exists n.
  split; [exact Hn|]. split; [now rewrite Hw|].
  rewrite Hl. split; reflexivity.
Qed.

(** X14.  When the progress log reports the value [a] of [u[0]], the loop
    has exactly (255 - a)^4 terms left to send before the three closing
    zeros. *)
Theorem terms_left_at_log a :
  0 <= a < 255 ->
  logged (Word a 255 255 255) = [a] /\
  Z.of_nat (length (loop_from (Word a 255 255 255))) =
  (255 - a) * (255 - a) * (255 - a) * (255 - a).
Proof.
  intros Ha. split.
  - unfold logged. cbn [u0 u1 u2 u3]. now rewrite !Z.eqb_refl.
  - pose proof (count_app _ _ _ (rest_one a Ha)) as E.
    rewrite count_single in E by lia. unfold count, rest_from in E.
    rewrite length_app in E. cbn [length] in E.
    replace (256 - (a + 1)) with (255 - a) in E by lia. lia.
Qed.

Lemma terms_left_at_log_witness :
  logged (Word 254 255 255 255) = [254] /\
  Z.of_nat (length (loop_from (Word 254 255 255 255))) =
  (255 - 254) * (255 - 254) * (255 - 254) * (255 - 254).
Proof. apply (terms_left_at_log 254). lia. Defined.
